(** * ai-commit: a shallow embedding of [src/ai_commit/__main__.py]

    The program reads the staged diff from git, asks a hosted model for a
    commit message, lets the user accept, reject, edit or regenerate it, and
    commits.  Everything it does is an interaction with its surroundings
    (two subprocesses, one remote API, the terminal), so the embedding is a
    state-and-exception monad over an explicit environment:

    - [Env] fixes how the surroundings answer (what [git diff --staged]
      does, what the n-th API call does, what [git commit] does, and the two
      functions of the rich library that its markup reader relies on);
    - [State] holds what is consumed and produced during a run (the lines
      still to be typed, the number of API calls made, the trace of events);
    - Python exceptions are values of [exn], raised and caught explicitly. *)

From Stdlib Require Import String Ascii List ZArith NArith Bool Arith Lia.
Import ListNotations.
Open Scope list_scope.

(** ** Python strings

    A Python [str] is a sequence of Unicode code points; [len] counts code
    points and slicing cuts between them. *)

Definition str := list N.

(** An ASCII literal of the source as a [str]. *)
Definition lit (s : string) : str := map N_of_ascii (list_ascii_of_string s).

(** The escape [\n]. *)
Definition nl : str := [10%N].

(** [str.isspace] on one code point, as used by [str.strip()] without
    arguments: the ASCII controls 0x09-0x0D and 0x1C-0x1F, the space, and the
    Unicode white-space code points. *)
Definition isspace (c : N) : bool :=
  (((9 <=? c) && (c <=? 13)) || ((28 <=? c) && (c <=? 32)) ||
   (c =? 133) || (c =? 160) || (c =? 5760) ||
   ((8192 <=? c) && (c <=? 8202)) ||
   (c =? 8232) || (c =? 8233) || (c =? 8239) || (c =? 8287) ||
   (c =? 12288))%N.

Fixpoint lstrip (s : str) : str :=
  match s with
  | [] => []
  | c :: s' => if isspace c then lstrip s' else s
  end.

Definition rstrip (s : str) : str := rev (lstrip (rev s)).

(** [s.strip()] *)
Definition strip (s : str) : str := rstrip (lstrip s).

(** [s.lower()].  Only the ASCII letters are mapped.  Python also maps
    letters outside ASCII, but none of them to a string made of the ASCII
    letters of the choice words below, so which choice an input denotes is
    not affected. *)
Definition lower_char (c : N) : N :=
  if ((65 <=? c) && (c <=? 90))%N then (c + 32)%N else c.

Definition lower (s : str) : str := map lower_char s.

Fixpoint str_eqb (a b : str) : bool :=
  match a, b with
  | [], [] => true
  | x :: a', y :: b' => (x =? y)%N && str_eqb a' b'
  | _, _ => false
  end.

(** [x in [...]] on a list of strings. *)
Definition in_list (x : str) (l : list str) : bool := existsb (str_eqb x) l.

(** Truth value of a [str] and of a [str | None]. *)
Definition truthy_str (s : str) : bool :=
  match s with [] => false | _ :: _ => true end.

Definition truthy (o : option str) : bool :=
  match o with Some s => truthy_str s | None => false end.

(** The string behind a [str | None] known to be true. *)
Definition unwrap (o : option str) : str :=
  match o with Some s => s | None => [] end.

(** [str(x)] of a [str | None], as an f-string or [%s] renders it. *)
Definition py_str (o : option str) : str :=
  match o with Some s => s | None => lit "None" end.

(** What reading a child's output in text mode does to line ends: [\r\n]
    and a lone [\r] both become [\n].  [after_cr] tells that the character
    before was a [\r], which has been written as [\n] already. *)
Fixpoint translate_newlines (after_cr : bool) (s : str) : str :=
  match s with
  | [] => []
  | c :: s' =>
      if (c =? 13)%N then 10%N :: translate_newlines true s'
      else if (c =? 10)%N && after_cr then translate_newlines false s'
      else c :: translate_newlines false s'
  end.

Definition universal_newlines (s : str) : str := translate_newlines false s.

(** ** Exceptions and results *)

Inductive exn : Type :=
| SystemExit (code : Z)
| KeyboardInterrupt
| EOFError
| CalledProcessError (returncode : Z) (output stderr : option str)
| FileNotFoundError
| OSError (e : str)
| HTTPError (e : str)
| RequestException (e : str)
| MarkupError
| OtherError (e : str).

(** [isinstance(e, Exception)]: [SystemExit] and [KeyboardInterrupt] derive
    from [BaseException] only. *)
Definition is_Exception (e : exn) : bool :=
  match e with
  | SystemExit _ | KeyboardInterrupt => false
  | _ => true
  end.

(** A computation returns, raises, or is cut off by the iteration bound of
    [while_fuel] below. *)
Inductive result (A : Type) : Type :=
| Return (a : A)
| Raise (e : exn)
| Unfinished.
Arguments Return {A} a.
Arguments Raise {A} e.
Arguments Unfinished {A}.

(** ** The surroundings *)

(** What the user does at a prompt: types a line, or presses Ctrl-C.  A
    prompt with nothing left to read sees the end of input. *)
Inductive console_in : Type :=
| Line (s : str)
| CtrlC.

(** How a git subprocess ends.  [text] is what the child wrote: for
    [check_output] with [stderr=STDOUT] the captured output, decoded, as the
    child wrote it (line ends included); for [run] without capture the child
    writes to the terminal itself and the program sees none of it.
    [Crashed] stands for the other ways a call of [subprocess] fails (an
    [OSError] other than a missing binary). *)
Inductive proc_result : Type :=
| Exited (returncode : Z) (text : str)
| NotFound
| Interrupted
| Crashed (e : str).

(** How a chat-completion call ends: with the text of the reply, with one
    of the two exceptions of [requests] the program names, with any other
    [Exception] (also a reply that has no text), or by Ctrl-C. *)
Inductive api_result : Type :=
| ApiContent (content : str)
| ApiHTTPError (e : str)
| ApiRequestException (e : str)
| ApiUnexpected (e : str)
| ApiInterrupted.

(** The last two fields are the two functions of rich that decide, with
    the tags of a text, whether the text is accepted as console markup:
    [Style.normalize], which brings a style name to a canonical form, and
    the reading of the parameters of a meta tag ([@name=...]), which is
    Python's [ast.literal_eval] and fails on some texts. *)
Record Env : Type := mkEnv {
  HF_TOKEN : option str;                 (* os.getenv("HF_TOKEN") *)
  argv_model : option str;               (* --model, when given *)
  git_diff_staged : proc_result;         (* git diff --staged *)
  chat_completion : nat -> api_result;   (* the n-th call of the API *)
  git_commit : str -> proc_result;       (* git commit -F - on that input *)
  Style_normalize : str -> str;          (* rich.style.Style.normalize *)
  handler_parses : str -> bool           (* literal_eval of a meta tag's parameters *)
}.

Inductive level : Type := LvlWarning | LvlError.

(** What a run does, in order.  Calls that block carry how they ended.
    The events of the console carry the text that was handed to rich, not
    what rich made of it on the terminal: [Printed], [Status] and the
    prompt of [Input] carry console markup, [Panel] a title in markup and a
    body that is markup (the suggestion) or source text for a highlighter
    (the diff).  An event is recorded when rich accepted the text. *)
Inductive event : Type :=
| Printed (text : str)
| Panel (title body : str)
| Status (text : str)
| Logged (lvl : level) (text : str)
| Input (prompt : str) (reply : option console_in)
| GitDiff (r : proc_result)
| ApiCall (token : option str) (model prompt : str) (r : api_result)
| GitCommit (msg : str) (r : proc_result).

Record State : Type := mkState {
  stdin : list console_in;
  api_calls : nat;
  trace : list event
}.

Definition init (lines : list console_in) : State := mkState lines 0 [].

(** ** The monad *)

Definition M (A : Type) : Type := State -> result A * State.

Definition ret {A} (a : A) : M A := fun st => (Return a, st).

Definition raise {A} (e : exn) : M A := fun st => (Raise e, st).

Definition bind {A B} (m : M A) (k : A -> M B) : M B :=
  fun st =>
    match m st with
    | (Return a, st') => k a st'
    | (Raise e, st') => (Raise e, st')
    | (Unfinished, st') => (Unfinished, st')
    end.

Notation "x <- m ;; k" := (bind m (fun x => k))
  (at level 61, m at next level, right associativity).
Notation "m ;; k" := (bind m (fun _ => k))
  (at level 61, right associativity).

(** [try: m except ...: handler] where [handler] re-raises what no clause
    matches. *)
Definition try_catch {A} (m : M A) (handler : exn -> M A) : M A :=
  fun st =>
    match m st with
    | (Raise e, st') => handler e st'
    | other => other
    end.

Definition emit (e : event) : M unit :=
  fun st => (Return tt, mkState (stdin st) (api_calls st) (trace st ++ [e])).

(** [sys.exit(code)] *)
Definition sys_exit {A} (code : Z) : M A := raise (SystemExit code).

(** [while True: body], cut off after [fuel] iterations.  The body answers
    [inl s] to go round again with the loop variables [s], and [inr a] for
    [return a]. *)
Fixpoint while_fuel {S A} (fuel : nat) (body : S -> M (S + A)) (s : S) : M A :=
  match fuel with
  | O => fun st => (Unfinished, st)
  | Datatypes.S n =>
      r <- body s ;;
      match r with
      | inl s' => while_fuel n body s'
      | inr a => ret a
      end
  end.

(** The loops of this program read a line in every iteration that goes
    round again, so one iteration more than there are lines left is enough
    ([prompt_commit_message_unfold], [main_finishes]). *)
Definition while_True {S A} (body : S -> M (S + A)) (s : S) : M A :=
  fun st => while_fuel (Datatypes.S (length (stdin st))) body s st.

(** ** Console markup

    Every text that the program hands to [console.print], [console.input],
    [console.status] or [Panel.fit], and every panel title, is read by rich
    as console markup ([rich.markup.render]): the tags in square brackets
    are taken out of the text, and a closing tag that closes nothing raises
    [MarkupError].  What follows is that reader, as far as it decides
    whether a text is accepted. *)

(** A tag: its name and, after [=], its parameters. *)
Record Tag : Type := mkTag {
  tag_name : str;
  tag_parameters : option str
}.

(** [tag_text.partition("=")] *)
Fixpoint partition_eq (s : str) : str * option str :=
  match s with
  | [] => ([], None)
  | c :: s' =>
      if (c =? 61)%N then ([], Some s')
      else let (name, parameters) := partition_eq s' in (c :: name, parameters)
  end.

Definition to_tag (tag_text : str) : Tag :=
  let (name, parameters) := partition_eq tag_text in mkTag name parameters.

(** The class [[a-z#/@]] of the first character of a tag. *)
Definition tag_start (c : N) : bool :=
  (((97 <=? c) && (c <=? 122)) || (c =? 35) || (c =? 47) || (c =? 64))%N.

(** Tags are found by [RE_TAGS.finditer].  The regular expression
    [RE_TAGS] matches any number of backslashes, an opening bracket, one
    character of the class above, and then as few characters other than an
    opening bracket as lead to a closing bracket.  Read from
    left to right, the search is in one of three places: between tags,
    having read backslashes of which an odd number ([escaped]) or not;
    just after an opening bracket; or in the text of a tag ([text], last
    character first), whose last characters are backslashes of which an odd
    number ([odd]) or not.  An opening bracket in the text of a tag ends
    that attempt and begins another. *)
Inductive scanner : Type :=
| Outside (escaped : bool)
| Opened (escaped : bool)
| Inside (escaped : bool) (text : str) (odd : bool).

(** One character further.  A closing bracket completes a tag; the tag
    counts when the backslashes before its bracket were even in number
    (with an odd number, [_parse] hands it on as text). *)
Definition scan_step (q : scanner) (c : N) : scanner * option str :=
  match q with
  | Outside escaped =>
      if (c =? 92)%N then (Outside (negb escaped), None)
      else if (c =? 91)%N then (Opened escaped, None)
      else (Outside false, None)
  | Opened escaped =>
      if tag_start c then (Inside escaped [c] false, None)
      else if (c =? 91)%N then (Opened false, None)
      else if (c =? 92)%N then (Outside true, None)
      else (Outside false, None)
  | Inside escaped text odd =>
      if (c =? 93)%N then
        (Outside false, if escaped then None else Some (rev text))
      else if (c =? 91)%N then (Opened odd, None)
      else
        (Inside escaped (c :: text) (if (c =? 92)%N then negb odd else false),
         None)
  end.

(** The texts of the tags of [s], in order, from the place [q]. *)
Fixpoint scan (q : scanner) (s : str) : list str :=
  match s with
  | [] => []
  | c :: s' =>
      match scan_step q c with
      | (q', Some tag_text) => tag_text :: scan q' s'
      | (q', None) => scan q' s'
      end
  end.

(** The tags that [_parse(markup)] yields. *)
Definition markup_tags (markup : str) : list Tag :=
  map to_tag (scan (Outside false) markup).

(** [pop_style(style_name)]: takes the topmost open tag of that name off the
    stack (the top of the stack is the head of the list). *)
Fixpoint pop_style (style_name : str) (style_stack : list Tag)
  : option (Tag * list Tag) :=
  match style_stack with
  | [] => None
  | tag :: below =>
      if str_eqb (tag_name tag) style_name then Some (tag, below)
      else
        match pop_style style_name below with
        | Some (found, below') => Some (found, tag :: below')
        | None => None
        end
  end.

Section Console.

Variable env : Env.

(** Closing a meta tag ([@name=parameters]) reads its parameters, which
    fails on some texts. *)
Definition handler_fails (open_tag : Tag) : bool :=
  match tag_name open_tag with
  | 64%N :: _ =>
      match tag_parameters open_tag with
      | Some parameters =>
          truthy_str parameters && negb (handler_parses env parameters)
      | None => false
      end
  | _ => false
  end.

(** The loop of [render] over the tags: an opening tag is pushed under its
    normalised name; a closing tag [[/name]] pops the topmost tag of that
    name, [[/]] the top of the stack; [false] stands for [MarkupError]. *)
Fixpoint render_tags (tags style_stack : list Tag) : bool :=
  match tags with
  | [] => true
  | tag :: tags' =>
      match tag_name tag with
      | 47%N :: closing =>
          let style_name := strip closing in
          let popped :=
            if truthy_str style_name then
              pop_style (Style_normalize env style_name) style_stack
            else
              match style_stack with
              | [] => None
              | top :: below => Some (top, below)
              end in
          match popped with
          | None => false
          | Some (open_tag, style_stack') =>
              if handler_fails open_tag then false
              else render_tags tags' style_stack'
          end
      | _ =>
          render_tags tags'
            (mkTag (Style_normalize env (tag_name tag)) (tag_parameters tag)
               :: style_stack)
      end
  end.

(** Whether rich accepts [markup]. *)
Definition markup_ok (markup : str) : bool :=
  render_tags (markup_tags markup) [].

(** ** Console, logger, subprocess, API *)

(** The reading of a text as markup, before anything of it is shown. *)
Definition render_markup (markup : str) : M unit :=
  if markup_ok markup then ret tt else raise MarkupError.

(** [console.print(text)] *)
Definition console_print (text : str) : M unit :=
  render_markup text ;;
  emit (Printed text).

(** [console.print(Panel.fit(body, title=title, ...))]: title and body are
    markup. *)
Definition console_panel (title body : str) : M unit :=
  render_markup title ;;
  render_markup body ;;
  emit (Panel title body).

(** [console.print(Panel(Syntax(code, ...), title=title, ...))]: the title
    is markup, the code is not. *)
Definition console_syntax_panel (title code : str) : M unit :=
  render_markup title ;;
  emit (Panel title code).

(** [with console.status(text, ...)] *)
Definition console_status (text : str) : M unit :=
  render_markup text ;;
  emit (Status text).

(** [input()], after the prompt has been printed. *)
Definition read_line (prompt : str) : M str :=
  fun st =>
    match stdin st with
    | [] =>
        (Raise EOFError,
         mkState [] (api_calls st) (trace st ++ [Input prompt None]))
    | Line s :: rest =>
        (Return s,
         mkState rest (api_calls st) (trace st ++ [Input prompt (Some (Line s))]))
    | CtrlC :: rest =>
        (Raise KeyboardInterrupt,
         mkState rest (api_calls st) (trace st ++ [Input prompt (Some CtrlC)]))
    end.

(** [console.input(prompt)] *)
Definition console_input (prompt : str) : M str :=
  render_markup prompt ;;
  read_line prompt.

End Console.

(** [logger.warning] and [logger.error]: the handler of [logging.basicConfig]
    writes the text as it is. *)
Definition logger_log (lvl : level) (text : str) : M unit := emit (Logged lvl text).

Section Program.

Variable env : Env.

(** [subprocess.check_output(["git", "diff", "--staged"], text=True,
    stderr=subprocess.STDOUT, encoding='utf-8')]: in text mode the output
    is handed over, and attached to the exception of a failed run, with its
    line ends translated. *)
Definition check_output_git_diff : M str :=
  emit (GitDiff (git_diff_staged env)) ;;
  match git_diff_staged env with
  | Exited rc text =>
      let output := universal_newlines text in
      if (rc =? 0)%Z then ret output
      else raise (CalledProcessError rc (Some output) None)
  | NotFound => raise FileNotFoundError
  | Interrupted => raise KeyboardInterrupt
  | Crashed e => raise (OSError e)
  end.

(** [subprocess.run(["git", "commit", "-F", "-"], input=msg, text=True,
    check=True, encoding='utf-8')]: nothing is captured, so the exception
    of a failed run has [output] and [stderr] set to [None]. *)
Definition run_git_commit (msg : str) : M unit :=
  emit (GitCommit msg (git_commit env msg)) ;;
  match git_commit env msg with
  | Exited rc _ =>
      if (rc =? 0)%Z then ret tt
      else raise (CalledProcessError rc None None)
  | NotFound => raise FileNotFoundError
  | Interrupted => raise KeyboardInterrupt
  | Crashed e => raise (OSError e)
  end.

(** [client.chat.completions.create(...)] followed by
    [.choices[0].message["content"]]; a reply without such a field is one of
    the unexpected failures. *)
Definition chat_completions_create (token : option str) (model prompt : str)
  : M str :=
  fun st =>
    let r := chat_completion env (api_calls st) in
    let st' := mkState (stdin st) (S (api_calls st))
                       (trace st ++ [ApiCall token model prompt r]) in
    match r with
    | ApiContent c => (Return c, st')
    | ApiHTTPError e => (Raise (HTTPError e), st')
    | ApiRequestException e => (Raise (RequestException e), st')
    | ApiUnexpected e => (Raise (OtherError e), st')
    | ApiInterrupted => (Raise KeyboardInterrupt, st')
    end.

(** ** Setup *)

Definition DEFAULT_MODEL : str := lit "meta-llama/Llama-3.2-3B-Instruct".
Definition MAX_DIFF_CHARS : nat := 5000.

Definition truncation_marker : str := nl ++ lit "... [truncated]".

Definition git_not_found_message : str :=
  lit "Git command not found. Please ensure git is installed and in your PATH.".

(** ** Git helpers *)

Definition get_staged_diff : M (option str) :=
  try_catch
    (out <- check_output_git_diff ;;
     let diff := strip out in
     if negb (truthy_str diff) then ret None
     else if MAX_DIFF_CHARS <? length diff then
       logger_log LvlWarning (lit "Diff too long, truncating to 5000 chars") ;;
       ret (Some (firstn MAX_DIFF_CHARS diff ++ truncation_marker))
     else ret (Some diff))
    (fun e =>
       match e with
       | CalledProcessError _ output _ =>
           logger_log LvlError (lit "Error getting git diff: " ++ py_str output) ;;
           ret None
       | FileNotFoundError =>
           logger_log LvlError git_not_found_message ;;
           ret None
       | _ => raise e
       end).

(** ** Commit message generation *)

Definition prompt_template (diff : str) : str :=
  nl ++
  lit "Analyze the following git diff, coming from the command git diff --cached , and generate a concise commit message in the Conventional Commits format." ++ nl ++
  lit "Start with a type (feat, fix, chore, docs, refactor, test, style, build, ci, perf), followed by a short, lowercase description." ++ nl ++
  lit "Do NOT add explanations, markdown, or code blocks." ++ nl ++
  nl ++
  lit "Git Diff:" ++ nl ++
  diff ++ nl ++
  nl ++
  lit "Commit Message:" ++ nl.

Definition generate_commit_message (diff model : str) (hf_token : option str)
  : M (option str) :=
  let client := if truthy hf_token then hf_token else None in
  let prompt := prompt_template diff in
  try_catch
    (content <- chat_completions_create client model prompt ;;
     ret (Some (strip content)))
    (fun e =>
       match e with
       | HTTPError t | RequestException t =>
           logger_log LvlError (lit "API error: " ++ t) ;;
           ret None
       | _ =>
           if is_Exception e then
             logger_log LvlError (lit "Unexpected error generating commit message") ;;
             ret None
           else raise e
       end).

(** ** Git commit *)

(** The two f-strings of [commit_with_message]; 9989 is the check mark. *)
Definition committed_notice (msg : str) : str :=
  nl ++ [9989%N] ++ lit " Successfully committed with message: [bold green]"
     ++ msg ++ lit "[/bold green]".

Definition commit_error_notice (stderr : option str) : str :=
  nl ++ lit "[red]Git commit error:[/red]" ++ nl ++ py_str stderr.

Definition commit_with_message (msg : str) : M unit :=
  try_catch
    (run_git_commit msg ;;
     console_print env (committed_notice msg))
    (fun e =>
       match e with
       | CalledProcessError _ _ stderr =>
           logger_log LvlError (lit "Git commit failed: " ++ py_str stderr) ;;
           console_print env (commit_error_notice stderr)
       | _ => raise e
       end).

(** ** UI helpers *)

Definition show_diff (diff : str) : M unit :=
  console_syntax_panel env (lit "[yellow]Staged Diff[/yellow]") diff.

Definition suggestion_title : str := lit "[cyan]Suggested Commit Message[/cyan]".

Definition show_suggested_message (msg : str) : M unit :=
  console_panel env suggestion_title
                (lit "[bold green]" ++ msg ++ lit "[/bold green]").

(** ** User prompt functions *)

Definition manual_prompt : str := lit "[yellow]Enter your commit message:[/yellow] ".

Definition empty_message_notice : str :=
  lit "[red]Commit message cannot be empty. Exiting.[/red]".

Definition prompt_manual_message : M str :=
  while_True
    (fun _ : unit =>
       line <- console_input env manual_prompt ;;
       let msg := strip line in
       if truthy_str msg then ret (inr msg)
       else
         console_print env empty_message_notice ;;
         sys_exit 1)
    tt.

Definition review_prompt : str :=
  lit "[bold cyan]Use this message?[/bold cyan] " ++
  lit "[green][Y]es[/green] / [red][N]o[/red] / [yellow][E]dit[/yellow] / [magenta][R]egenerate[/magenta]: ".

Definition rejected_notice : str := lit "[red]Commit cancelled by user.[/red]".

Definition invalid_choice_notice : str :=
  lit "[red]Invalid choice. Enter 'y', 'n', 'e', or 'r'.[/red]".

(** The choice a normalised answer ([.strip().lower()]) denotes: the tests
    of [review_round], in their order. *)
Inductive choice : Type := Accept | Reject | Edit | Regenerate | Invalid.

Definition classify (c : str) : choice :=
  if in_list c [lit "y"; lit "yes"; lit ""] then Accept
  else if in_list c [lit "n"; lit "no"] then Reject
  else if in_list c [lit "e"; lit "edit"] then Edit
  else if in_list c [lit "r"; lit "regen"; lit "regenerate"] then Regenerate
  else Invalid.

(** One round of the loop of [prompt_commit_message]; the loop variable is
    [msg]. *)
Definition review_round (diff model : str) (hf_token : option str) (msg : str)
  : M (str + str) :=
  line <- console_input env review_prompt ;;
  let choice := lower (strip line) in
  if in_list choice [lit "y"; lit "yes"; lit ""] then
    ret (inr msg)
  else if in_list choice [lit "n"; lit "no"] then
    console_print env rejected_notice ;;
    sys_exit 0
  else if in_list choice [lit "e"; lit "edit"] then
    msg <- prompt_manual_message ;;
    ret (inl msg)
  else if in_list choice [lit "r"; lit "regen"; lit "regenerate"] then
    console_status env (lit "[bold magenta]Regenerating commit message...[/bold magenta]") ;;
    msg <- generate_commit_message diff model hf_token ;;
    if truthy msg then
      show_suggested_message (unwrap msg) ;;
      ret (inl (unwrap msg))
    else
      msg <- prompt_manual_message ;;
      ret (inl msg)
  else
    console_print env invalid_choice_notice ;;
    ret (inl msg).

Definition prompt_commit_message (initial_msg diff model : str)
                                 (hf_token : option str) : M str :=
  while_True (review_round diff model hf_token) initial_msg.

(** ** Main *)

Definition no_staged_notice : str :=
  nl ++ lit "[red]No staged changes. Stage your files first (`git add`).[/red]".

Definition generation_failed_notice : str :=
  lit "[red]Failed to generate a commit message. Please write one manually.[/red]".

Definition interrupted_notice : str :=
  nl ++ nl ++ lit "[bold yellow]Operation cancelled by user. Exiting.[/bold yellow]".

(** [args.model] after [parse_args()]. *)
Definition args_model : str :=
  match argv_model env with Some m => m | None => DEFAULT_MODEL end.

(** The [except KeyboardInterrupt] clause of [main]. *)
Definition main_handler (e : exn) : M unit :=
  match e with
  | KeyboardInterrupt =>
      console_print env interrupted_notice ;;
      sys_exit 0
  | _ => raise e
  end.

Definition main : M unit :=
  let hf_token := HF_TOKEN env in
  try_catch
    (diff <- get_staged_diff ;;
     if negb (truthy diff) then
       console_print env no_staged_notice ;;
       sys_exit 1
     else
       let diff := unwrap diff in
       show_diff diff ;;
       console_status env (lit "[bold green]Generating commit message...[/bold green]") ;;
       msg <- generate_commit_message diff args_model hf_token ;;
       msg <- (if truthy msg then
                 show_suggested_message (unwrap msg) ;;
                 prompt_commit_message (unwrap msg) diff args_model hf_token
               else
                 console_print env generation_failed_notice ;;
                 msg <- prompt_manual_message ;;
                 if negb (truthy_str msg) then
                   console_print env empty_message_notice ;;
                   sys_exit 1
                 else ret msg) ;;
       commit_with_message msg)
    main_handler.

End Program.

(** The exit status of the process whose entry point calls [main]: a
    normal return ends it with 0, [sys.exit(code)] with [code], an
    exception that nothing catches, [MarkupError] among them, with a
    traceback and 1 (an uncaught [KeyboardInterrupt] as death by SIGINT,
    130 to the shell). *)
Definition exit_status (r : result unit) : option Z :=
  match r with
  | Return _ => Some 0%Z
  | Raise (SystemExit code) => Some code
  | Raise KeyboardInterrupt => Some 130%Z
  | Raise _ => Some 1%Z
  | Unfinished => None
  end.

(** A whole run: [main] from the initial state. *)
Definition run (env : Env) (lines : list console_in) : result unit * State :=
  main env (init lines).

(** * The vocabulary of the properties *)

(** ** Progress and Hoare triples *)

(** A computation that finishes and reads, never un-reads, input. *)
Definition tame {A} (m : M A) : Prop :=
  forall st,
    fst (m st) <> Unfinished /\
    length (stdin (snd (m st))) <= length (stdin st).

(** A loop body that reads at least one line whenever it goes round again. *)
Definition advances {S A} (body : S -> M (S + A)) : Prop :=
  (forall s, tame (body s)) /\
  (forall s st s' st',
      body s st = (Return (inl s'), st') ->
      length (stdin st') < length (stdin st)).

(** From a state satisfying [P], the result and final state of [m]
    satisfy [Q]. *)
Definition hoare {A} (P : State -> Prop) (m : M A)
                 (Q : result A -> State -> Prop) : Prop :=
  forall st, P st -> Q (fst (m st)) (snd (m st)).

(** A postcondition given by what holds after a return and after a raise;
    nothing is claimed of a computation cut off by the iteration bound
    ([tame] rules that out separately). *)
Definition post {A} (Qv : A -> State -> Prop) (Qe : exn -> State -> Prop)
  : result A -> State -> Prop :=
  fun r st =>
    match r with
    | Return a => Qv a st
    | Raise e => Qe e st
    | Unfinished => True
    end.

(** ** States and traces *)

(** The state [st] after more events. *)
Definition with_events (st : State) (evs : list event) : State :=
  mkState (stdin st) (api_calls st) (trace st ++ evs).

(** The state after the API call number [api_calls st]. *)
Definition after_call (env : Env) (st : State) (tok : option str)
                      (model diff : str) (evs : list event) : State :=
  mkState (stdin st) (S (api_calls st))
          (trace st ++
           ApiCall (if truthy tok then tok else None) model
                   (prompt_template diff)
                   (chat_completion env (api_calls st)) :: evs).

(** A blocking call that ended by Ctrl-C. *)
Definition is_interrupt (e : event) : bool :=
  match e with
  | Input _ (Some CtrlC) => true
  | GitDiff Interrupted => true
  | ApiCall _ _ _ ApiInterrupted => true
  | GitCommit _ Interrupted => true
  | _ => false
  end.

(** A call of [git commit]. *)
Definition is_commit (e : event) : bool :=
  match e with GitCommit _ _ => true | _ => false end.

(** One of the four notices that are printed just before [sys.exit]. *)
Definition is_notice (e : event) : bool :=
  match e with
  | Printed t =>
      in_list t [no_staged_notice; empty_message_notice;
                 rejected_notice; interrupted_notice]
  | _ => false
  end.

(** The panel of [show_suggested_message] around an empty message. *)
Definition is_blank_suggestion (e : event) : bool :=
  match e with
  | Panel title body =>
      str_eqb title suggestion_title &&
      str_eqb body (lit "[bold green]" ++ [] ++ lit "[/bold green]")
  | _ => false
  end.

(** An event of a run that goes on and has not reached the commit. *)
Definition ordinary (e : event) : bool :=
  negb (is_interrupt e) && negb (is_commit e) && negb (is_notice e) &&
  negb (is_blank_suggestion e).

(** A trace made of such events only. *)
Definition clean (tr : list event) : Prop := forallb ordinary tr = true.

(** ** How runs end *)

(** The exceptions that pass through the program uncaught before the
    commit step: the end of input at a prompt, a crash of [git diff], and a
    text that rich does not accept as markup. *)
Definition escapes (e : exn) : bool :=
  match e with
  | EOFError | OSError _ | MarkupError => true
  | _ => false
  end.

(** How the part of the program before the commit step can raise:
    the exception, and the trace at that moment. *)
Inductive exits : exn -> list event -> Prop :=
| exits_interrupt tr ev :
    clean tr -> is_interrupt ev = true -> is_commit ev = false ->
    exits KeyboardInterrupt (tr ++ [ev])
| exits_rejected tr s :
    clean tr -> classify (lower (strip s)) = Reject ->
    exits (SystemExit 0)
          (tr ++ [Input review_prompt (Some (Line s)); Printed rejected_notice])
| exits_no_staged tr :
    clean tr -> exits (SystemExit 1) (tr ++ [Printed no_staged_notice])
| exits_empty tr s :
    clean tr -> strip s = [] ->
    exits (SystemExit 1)
          (tr ++ [Input manual_prompt (Some (Line s));
                  Printed empty_message_notice])
| exits_failure e tr :
    escapes e = true -> clean tr -> exits e tr.

(** [precommit phi m]: from a clean trace, [m] returns a value satisfying
    [phi] with a clean trace, or raises as [exits] describes. *)
Definition precommit {A} (phi : A -> Prop) (m : M A) : Prop :=
  hoare (fun st => clean (trace st)) m
        (post (fun a st => clean (trace st) /\ phi a)
              (fun e st => exits e (trace st))).

(** The trace right after the user answered [s] to the prompt [p]. *)
Definition asked (p s : str) (tr : list event) : Prop :=
  exists tr0, clean tr0 /\ tr = tr0 ++ [Input p (Some (Line s))].

(** What [commit_with_message] does, in closed form
    ([commit_with_message_runs]): its result and the events it adds. *)
Definition commit_events (env : Env) (msg : str) : result unit * list event :=
  match git_commit env msg with
  | Exited rc text =>
      if (rc =? 0)%Z then
        if markup_ok env (committed_notice msg) then
          (Return tt,
           [GitCommit msg (Exited rc text); Printed (committed_notice msg)])
        else
          (Raise MarkupError, [GitCommit msg (Exited rc text)])
      else
        (Return tt,
         [GitCommit msg (Exited rc text);
          Logged LvlError (lit "Git commit failed: " ++ lit "None");
          Printed (commit_error_notice None)])
  | NotFound => (Raise FileNotFoundError, [GitCommit msg NotFound])
  | Interrupted => (Raise KeyboardInterrupt, [GitCommit msg Interrupted])
  | Crashed x => (Raise (OSError x), [GitCommit msg (Crashed x)])
  end.

(** How the body of [main] (inside its [try]) ends. *)
Inductive ends (env : Env) : result unit -> list event -> Prop :=
| ends_early e tr :
    exits e tr -> ends env (Raise e) tr
| ends_commit tr msg r evs :
    clean tr -> msg <> [] -> commit_events env msg = (r, evs) ->
    ends env r (tr ++ evs).

(** How [main] ends. *)
Inductive finished (env : Env) : result unit -> list event -> Prop :=
| fin_exit e tr :
    exits e tr -> e <> KeyboardInterrupt -> finished env (Raise e) tr
| fin_interrupted tr ev :
    clean tr -> is_interrupt ev = true -> is_commit ev = false ->
    finished env (Raise (SystemExit 0)) (tr ++ [ev; Printed interrupted_notice])
| fin_commit tr msg r evs :
    clean tr -> msg <> [] -> commit_events env msg = (r, evs) ->
    git_commit env msg <> Interrupted ->
    finished env r (tr ++ evs)
| fin_commit_interrupted tr msg :
    clean tr -> msg <> [] -> git_commit env msg = Interrupted ->
    finished env (Raise (SystemExit 0))
             (tr ++ [GitCommit msg Interrupted; Printed interrupted_notice]).

(** The three notices printed before [sys.exit] on the way to the commit. *)
Definition is_rejection (e : event) : bool :=
  match e with Printed t => str_eqb t rejected_notice | _ => false end.

Definition is_empty_notice (e : event) : bool :=
  match e with Printed t => str_eqb t empty_message_notice | _ => false end.

Definition is_no_staged (e : event) : bool :=
  match e with Printed t => str_eqb t no_staged_notice | _ => false end.

(** A notice of one of the three ways the program gives up before the
    commit: nothing staged, an empty manual message, a rejection. *)
Definition is_abort (e : event) : bool :=
  is_no_staged e || is_empty_notice e || is_rejection e.

(** ** Sample surroundings *)

(** A normaliser of style names that knows no style: what
    [Style.normalize] does with a name that is not a style definition. *)
Definition no_styles (style : str) : str := lower (strip style).

(** Surroundings with that normaliser, in which every meta tag is read. *)
Definition sample (token model : option str) (diff : proc_result)
                  (api : nat -> api_result) (commit : str -> proc_result)
  : Env :=
  mkEnv token model diff api commit no_styles (fun _ => true).

(** One file staged, a model that answers, a commit that goes through. *)
Definition env_ok : Env :=
  sample None None
        (Exited 0 (lit "diff --git a/x b/x" ++ nl))
        (fun _ => ApiContent (lit " fix: x "))
        (fun _ => Exited 0 []).

(** The same, but [git commit] exits with status 1. *)
Definition env_commit_fails : Env :=
  sample None None
        (Exited 0 (lit "diff --git a/x b/x" ++ nl))
        (fun _ => ApiContent (lit " fix: x "))
        (fun _ => Exited 1 (lit "error: gpg failed to sign the data")).

(** The same as [env_ok], but no git binary. *)
Definition env_no_git : Env :=
  sample None None NotFound (fun _ => ApiContent (lit "fix: x"))
        (fun _ => NotFound).

(** The same as [env_ok], but the API is unreachable. *)
Definition env_offline : Env :=
  sample None None
        (Exited 0 (lit "diff --git a/x b/x" ++ nl))
        (fun _ => ApiRequestException (lit "connection refused"))
        (fun _ => Exited 0 []).

(** The same as [env_ok], but the model answers with blanks only. *)
Definition env_blank : Env :=
  sample None None
        (Exited 0 (lit "diff --git a/x b/x" ++ nl))
        (fun _ => ApiContent (lit "  " ++ nl))
        (fun _ => Exited 0 []).

(** The same as [env_ok], but nothing is staged. *)
Definition env_nothing_staged : Env :=
  sample None None (Exited 0 [])
        (fun _ => ApiContent (lit " fix: x "))
        (fun _ => Exited 0 []).

(** Surroundings in which Ctrl-C ends, in turn, [git diff], the first API
    call, and [git commit]. *)
Definition env_diff_interrupted : Env :=
  sample None None Interrupted
        (fun _ => ApiContent (lit " fix: x "))
        (fun _ => Exited 0 []).

Definition env_api_interrupted : Env :=
  sample None None
        (Exited 0 (lit "diff --git a/x b/x" ++ nl))
        (fun _ => ApiInterrupted)
        (fun _ => Exited 0 []).

Definition env_commit_interrupted : Env :=
  sample None None
        (Exited 0 (lit "diff --git a/x b/x" ++ nl))
        (fun _ => ApiContent (lit " fix: x "))
        (fun _ => Interrupted).

(** A staged diff of one character more than the threshold. *)
Definition long_text : str := repeat 97%N (S MAX_DIFF_CHARS) ++ nl.

Definition env_long : Env :=
  sample None None
        (Exited 0 long_text)
        (fun _ => ApiContent (lit "fix: x"))
        (fun _ => Exited 0 []).

(** A staged diff of a file with Windows line ends. *)
Definition env_crlf : Env :=
  sample None None
         (Exited 0 (lit "+a" ++ [13; 10]%N ++ lit "+b" ++ [13; 10]%N))
         (fun _ => ApiContent (lit "fix: x"))
         (fun _ => Exited 0 []).

(** The same as [env_ok], but the second reply of the model holds a
    closing tag. *)
Definition env_tagged : Env :=
  sample None None
         (Exited 0 (lit "diff --git a/x b/x" ++ nl))
         (fun n => match n with
                   | O => ApiContent (lit " fix: x ")
                   | _ => ApiContent (lit "fix: drop [/INST] token")
                   end)
         (fun _ => Exited 0 []).

(** The same, with that reply as the first. *)
Definition env_tagged_first : Env :=
  sample None None
         (Exited 0 (lit "diff --git a/x b/x" ++ nl))
         (fun _ => ApiContent (lit "fix: drop [/INST] token"))
         (fun _ => Exited 0 []).

(** ** Runs with the same flow *)

(** A reply of the API after which there is no candidate message: a
    failure, or a text that is blank. *)
Definition generation_fails (r : api_result) : bool :=
  match r with
  | ApiContent c => negb (truthy_str (strip c))
  | ApiInterrupted => false
  | _ => true
  end.

(** What of an event shows the flow of a run: what the logger writes is
    left out, and all replies of the API after which there is no candidate
    message look alike. *)
Definition see (e : event) : list event :=
  match e with
  | Logged _ _ => []
  | ApiCall t m p r =>
      [ApiCall t m p (if generation_fails r then ApiUnexpected [] else r)]
  | _ => [e]
  end.

(** The flow a trace shows. *)
Definition view (tr : list event) : list event := flat_map see tr.

(** Two replies of the API that are equal or both leave no candidate. *)
Definition same_flow (r1 r2 : api_result) : Prop :=
  r1 = r2 \/ (generation_fails r1 = true /\ generation_fails r2 = true).

(** Two surroundings that differ at most in how generation fails. *)
Record agree (env1 env2 : Env) : Prop := mkAgree {
  agree_token : HF_TOKEN env1 = HF_TOKEN env2;
  agree_model : argv_model env1 = argv_model env2;
  agree_diff : git_diff_staged env1 = git_diff_staged env2;
  agree_api : forall n, same_flow (chat_completion env1 n) (chat_completion env2 n);
  agree_commit : forall msg, git_commit env1 msg = git_commit env2 msg;
  agree_styles : forall s, Style_normalize env1 s = Style_normalize env2 s;
  agree_handlers : forall s, handler_parses env1 s = handler_parses env2 s
}.

(** Two states with the same input left, the same number of API calls
    made, and traces that show the same flow. *)
Definition alike (st1 st2 : State) : Prop :=
  stdin st1 = stdin st2 /\
  api_calls st1 = api_calls st2 /\
  view (trace st1) = view (trace st2).

(** Two outcomes that end alike: alike states, and results of the same
    kind whose values [R] relates. *)
Definition related {A} (R : A -> A -> Prop) (o1 o2 : result A * State) : Prop :=
  alike (snd o1) (snd o2) /\
  match fst o1, fst o2 with
  | Return a, Return b => R a b
  | Raise e1, Raise e2 => e1 = e2
  | Unfinished, Unfinished => True
  | _, _ => False
  end.

(** Two computations that take alike states to related outcomes. *)
Definition rel_M {A} (R : A -> A -> Prop) (m1 m2 : M A) : Prop :=
  forall st1 st2, alike st1 st2 -> related R (m1 st1) (m2 st2).

(** Two results of [generate_commit_message] that the callers, which test
    the result before they use it, cannot tell apart. *)
Definition same_candidate (o1 o2 : option str) : Prop :=
  truthy o1 = truthy o2 /\ (truthy o1 = true -> o1 = o2).

(** ** Further vocabulary: strings and the requests of a run *)

(** A string of white space only. *)
Definition blank (s : str) : Prop := forallb isspace s = true.

(** [m] is [c] without the white space around it: [c] is [m] between two
    blank strings, and [m] neither begins nor ends with white space. *)
Definition trimmed_of (m c : str) : Prop :=
  (exists pad1 pad2, blank pad1 /\ blank pad2 /\ c = pad1 ++ m ++ pad2) /\
  match m with [] => True | x :: _ => isspace x = false end /\
  match rev m with [] => True | x :: _ => isspace x = false end.


(** A test of markup that asks nothing of the surroundings: no tag has
    parameters, and every closing tag is [[/]] or names the tag that was
    opened last and is still open.  [opened] holds the names of the open
    tags, the last one first. *)
Fixpoint nested (tags : list Tag) (opened : list str) : bool :=
  match tags with
  | [] => true
  | tag :: tags' =>
      match tag_parameters tag with
      | Some _ => false
      | None =>
          match tag_name tag with
          | 47%N :: closing =>
              match opened with
              | [] => false
              | top :: below =>
                  (negb (truthy_str (strip closing)) ||
                   str_eqb (strip closing) top) && nested tags' below
              end
          | name => nested tags' (name :: opened)
          end
      end
  end.

Definition plain_markup (markup : str) : bool :=
  nested (markup_tags markup) [].


(** The stack of [render] when the open tags, none with parameters, have
    the names [opened]. *)
Definition stack_of (env : Env) (opened : list str) : list Tag :=
  map (fun name => mkTag (Style_normalize env name) None) opened.

(** A string that does not begin with white space. *)
Definition headed (s : str) : Prop :=
  match s with [] => True | c :: _ => isspace c = false end.

(** The credential the client is built with: an empty [HF_TOKEN] counts as
    none. *)
Definition effective_token (env : Env) : option str :=
  if truthy (HF_TOKEN env) then HF_TOKEN env else None.

(** What [get_staged_diff] returns in [env], which does not depend on the
    state it is called in ([get_staged_diff_result]). *)
Definition staged_diff (env : Env) : option str :=
  match fst (get_staged_diff env (init [])) with
  | Return d => d
  | _ => None
  end.

Definition diff_title : str := lit "[yellow]Staged Diff[/yellow]".

(** An event as a run produces it before its last step: an API call asks
    about the staged diff with the model and credential of the run, the
    diff panel is handed the staged diff, a commit call carries a message
    without surrounding white space, and no prompt has met the end of
    input. *)
Definition sound (env : Env) (e : event) : Prop :=
  match e with
  | ApiCall t m p _ =>
      exists d,
        staged_diff env = Some d /\ p = prompt_template d /\
        m = args_model env /\ t = effective_token env
  | Panel title body =>
      title = diff_title -> staged_diff env = Some body
  | GitCommit msg _ => strip msg = msg
  | Input _ None => False
  | _ => True
  end.

(** How a computation may raise: the end of input at a prompt shows as the
    last event of the trace. *)
Definition ended (env : Env) (e : exn) (st : State) : Prop :=
  match e with
  | EOFError =>
      exists tr0 p, trace st = tr0 ++ [Input p None] /\ Forall (sound env) tr0
  | _ => Forall (sound env) (trace st)
  end.

Definition keeps {A} (env : Env) (phi : A -> Prop) (m : M A) : Prop :=
  hoare (fun st => Forall (sound env) (trace st)) m
        (post (fun a st => Forall (sound env) (trace st) /\ phi a)
              (ended env)).

(** A [str | None] whose text, if any, has no surrounding white space. *)
Definition trimmed (o : option str) : Prop :=
  forall m, o = Some m -> strip m = m.


(** * Reasoning about computations *)

(** ** Strings *)

Lemma str_eqb_eq (a b : str) : str_eqb a b = true <-> a = b.
Proof.
  revert b; induction a as [|x a IH]; intros [|y b]; simpl;
    try (split; [discriminate | congruence]); try tauto.
  rewrite andb_true_iff, N.eqb_eq, IH. split.
  - intros [-> ->]; reflexivity.
  - intros H; injection H; auto.
Qed.

Lemma truthy_str_false (s : str) : truthy_str s = false <-> s = [].
Proof. destruct s; simpl; split; congruence. Qed.

Lemma truthy_str_true (s : str) : truthy_str s = true <-> s <> [].
Proof. destruct s; simpl; split; congruence. Qed.

Lemma truthy_unwrap (o : option str) : truthy o = true -> unwrap o <> [].
Proof. destruct o as [s|]; simpl; [apply truthy_str_true | discriminate]. Qed.

(** ** White space and case *)

Lemma isspace_letter (c : N) : (33 <= c <= 132)%N -> isspace c = false.
Proof.
  intros H. unfold isspace.
  repeat apply orb_false_intro;
    first [ apply N.eqb_neq; lia
          | apply andb_false_iff; right; apply N.leb_gt; lia
          | apply andb_false_iff; left; apply N.leb_gt; lia ].
Qed.

Lemma isspace_lower_char (c : N) : isspace (lower_char c) = isspace c.
Proof.
  unfold lower_char.
  destruct ((65 <=? c) && (c <=? 90))%N eqn:E; [|reflexivity].
  apply andb_true_iff in E. destruct E as [E1 E2].
  apply N.leb_le in E1, E2.
  rewrite !isspace_letter by lia. reflexivity.
Qed.

Lemma lstrip_lower (s : str) : lstrip (lower s) = lower (lstrip s).
Proof.
  induction s as [|c s IH]; [reflexivity|].
  simpl. rewrite isspace_lower_char. destruct (isspace c); [exact IH | reflexivity].
Qed.

Lemma strip_lower (s : str) : strip (lower s) = lower (strip s).
Proof.
  assert (Hrev : forall x, rev (lower x) = lower (rev x))
    by (intros x; unfold lower; symmetry; apply map_rev).
  unfold strip, rstrip. rewrite lstrip_lower, Hrev, lstrip_lower, Hrev.
  reflexivity.
Qed.

Lemma lower_char_lower_char (c : N) : lower_char (lower_char c) = lower_char c.
Proof.
  unfold lower_char.
  destruct ((65 <=? c) && (c <=? 90))%N eqn:E; [|rewrite E; reflexivity].
  apply andb_true_iff in E. destruct E as [E1 E2]. apply N.leb_le in E1, E2.
  replace ((65 <=? c + 32) && (c + 32 <=? 90))%N with false; [reflexivity|].
  symmetry. apply andb_false_iff. right. apply N.leb_gt. lia.
Qed.

Lemma lower_lower (s : str) : lower (lower s) = lower s.
Proof.
  unfold lower. rewrite map_map. apply map_ext, lower_char_lower_char.
Qed.

Lemma lstrip_blank_app (pad s : str) : blank pad -> lstrip (pad ++ s) = lstrip s.
Proof.
  unfold blank. induction pad as [|c pad IH]; simpl; [reflexivity|].
  intros H. apply andb_true_iff in H. destruct H as [Hc Hp].
  rewrite Hc. auto.
Qed.

Lemma lstrip_blank (pad : str) : blank pad -> lstrip pad = [].
Proof.
  intros H. rewrite <- (app_nil_r pad). rewrite lstrip_blank_app by assumption.
  reflexivity.
Qed.

(** [lstrip] removes a blank prefix and nothing else. *)
Lemma lstrip_split (s : str) : exists pad, blank pad /\ s = pad ++ lstrip s.
Proof.
  induction s as [|c s [pad [Hp Hs]]].
  - exists []. split; reflexivity.
  - simpl. destruct (isspace c) eqn:E.
    + exists (c :: pad). split.
      * unfold blank. simpl. rewrite E. exact Hp.
      * simpl. rewrite <- Hs. reflexivity.
    + exists []. split; reflexivity.
Qed.

Lemma lstrip_headed (s : str) : headed (lstrip s).
Proof.
  induction s as [|c s IH]; simpl; [exact I|].
  destruct (isspace c) eqn:E; [exact IH | exact E].
Qed.

Lemma headed_lstrip (s : str) : headed s -> lstrip s = s.
Proof. destruct s as [|c s]; simpl; [reflexivity|]. intros ->. reflexivity. Qed.

Lemma blank_rev (s : str) : blank s -> blank (rev s).
Proof.
  unfold blank. rewrite !forallb_forall. intros H x Hx.
  apply H, in_rev, Hx.
Qed.

Lemma rstrip_split (s : str) : exists pad, blank pad /\ s = rstrip s ++ pad.
Proof.
  unfold rstrip. destruct (lstrip_split (rev s)) as [pad [Hp Hs]].
  exists (rev pad). split; [apply blank_rev, Hp|].
  rewrite <- rev_app_distr, <- Hs, rev_involutive. reflexivity.
Qed.

Lemma rstrip_headed (s : str) : headed s -> headed (rstrip s).
Proof.
  intros H. destruct (rstrip_split s) as [pad [Hp Hs]].
  destruct (rstrip s) as [|c t] eqn:E; [exact I|].
  rewrite Hs in H. exact H.
Qed.

Lemma rstrip_rstrip (s : str) : rstrip (rstrip s) = rstrip s.
Proof.
  unfold rstrip. rewrite rev_involutive.
  rewrite (headed_lstrip _ (lstrip_headed (rev s))). reflexivity.
Qed.

Lemma rstrip_app_blank (s pad : str) : blank pad -> rstrip (s ++ pad) = rstrip s.
Proof.
  intros H. unfold rstrip. rewrite rev_app_distr.
  rewrite lstrip_blank_app by (apply blank_rev, H). reflexivity.
Qed.

(** [strip] of a stripped string changes nothing. *)
Lemma strip_strip (s : str) : strip (strip s) = strip s.
Proof.
  unfold strip.
  rewrite (headed_lstrip (rstrip (lstrip s))).
  - apply rstrip_rstrip.
  - apply rstrip_headed, lstrip_headed.
Qed.

Lemma lstrip_app_headed (s t : str) :
  lstrip s <> [] -> lstrip (s ++ t) = lstrip s ++ t.
Proof.
  induction s as [|c s IH]; simpl; [congruence|].
  destruct (isspace c); [exact IH | reflexivity].
Qed.

Lemma strip_pad (pad1 s pad2 : str) :
  blank pad1 -> blank pad2 -> strip (pad1 ++ s ++ pad2) = strip s.
Proof.
  intros H1 H2. unfold strip. rewrite lstrip_blank_app by assumption.
  destruct (lstrip s) as [|c t] eqn:E.
  - destruct (lstrip_split s) as [p [Hp Hs]]. rewrite E, app_nil_r in Hs.
    subst s. rewrite lstrip_blank_app by assumption.
    rewrite lstrip_blank by assumption. reflexivity.
  - rewrite lstrip_app_headed by congruence. rewrite E.
    apply rstrip_app_blank, H2.
Qed.

Lemma strip_headed (s : str) : headed (strip s) /\ headed (rev (strip s)).
Proof.
  unfold strip. split.
  - apply rstrip_headed, lstrip_headed.
  - unfold rstrip. rewrite rev_involutive. apply lstrip_headed.
Qed.


(** [strip] sets apart the white space around a string. *)
Lemma strip_split (s : str) :
  exists pad1 pad2, blank pad1 /\ blank pad2 /\ s = pad1 ++ strip s ++ pad2.
Proof.
  destruct (lstrip_split s) as [pad1 [H1 Hs]].
  destruct (rstrip_split (lstrip s)) as [pad2 [H2 Hl]].
  exists pad1, pad2. repeat split; try assumption.
  unfold strip. rewrite <- Hl. exact Hs.
Qed.

Lemma strip_trimmed_of (s : str) : trimmed_of (strip s) s.
Proof.
  split; [apply strip_split|]. exact (strip_headed s).
Qed.

Lemma blank_app (a b : str) : blank (a ++ b) <-> blank a /\ blank b.
Proof. unfold blank. rewrite forallb_app, andb_true_iff. tauto. Qed.

(** What is left of a string by [strip] is nothing exactly when the string
    is blank. *)
Lemma strip_nil_iff (s : str) : strip s = [] <-> blank s.
Proof.
  split.
  - intros H. destruct (strip_split s) as [pad1 [pad2 [H1 [H2 Hs]]]].
    rewrite H in Hs. simpl in Hs. rewrite Hs. apply blank_app. tauto.
  - intros H. unfold strip. rewrite lstrip_blank by assumption. reflexivity.
Qed.

(** A string with the white space around it removed is the stripped
    string: [trimmed_of] determines its first argument. *)
Lemma trimmed_of_strip (m c : str) : trimmed_of m c -> m = strip c.
Proof.
  intros [[pad1 [pad2 [H1 [H2 ->]]]] [Hh Ht]].
  rewrite strip_pad by assumption.
  unfold strip. rewrite headed_lstrip by exact Hh.
  unfold rstrip. rewrite headed_lstrip by exact Ht.
  rewrite rev_involutive. reflexivity.
Qed.

(** ** Line ends *)

Lemma blank_translate_newlines (b : bool) (s : str) :
  blank (translate_newlines b s) <-> blank s.
Proof.
  unfold blank. revert b. induction s as [|c s IH]; intros b; simpl; [tauto|].
  destruct (c =? 13)%N eqn:E13.
  - apply N.eqb_eq in E13. subst c. simpl. apply IH.
  - destruct (c =? 10)%N eqn:E10.
    + apply N.eqb_eq in E10. subst c. destruct b; simpl; apply IH.
    + simpl. rewrite !andb_true_iff, IH. tauto.
Qed.

Lemma strip_universal_newlines_nil (s : str) :
  strip (universal_newlines s) = [] <-> strip s = [].
Proof.
  rewrite !strip_nil_iff. apply blank_translate_newlines.
Qed.

(** No carriage return is left. *)
Lemma translate_newlines_no_cr (b : bool) (s : str) :
  ~ In 13%N (translate_newlines b s).
Proof.
  revert b. induction s as [|c s IH]; intros b; simpl; [tauto|].
  destruct (c =? 13)%N eqn:E13.
  - simpl. intros [H|H]; [discriminate | exact (IH _ H)].
  - destruct ((c =? 10)%N && b); [apply IH|].
    simpl. intros [H|H]; [|exact (IH _ H)].
    apply N.eqb_neq in E13. congruence.
Qed.

(** A text without carriage returns is handed over as it is. *)
Lemma translate_newlines_id (s : str) :
  ~ In 13%N s -> translate_newlines false s = s.
Proof.
  induction s as [|c s IH]; simpl; [reflexivity|].
  intros H. destruct (c =? 13)%N eqn:E13.
  - apply N.eqb_eq in E13. tauto.
  - rewrite andb_false_r. rewrite IH by tauto. reflexivity.
Qed.

Lemma lstrip_incl (s : str) (x : N) : In x (lstrip s) -> In x s.
Proof.
  induction s as [|c s IH]; simpl; [tauto|].
  destruct (isspace c); simpl; tauto.
Qed.

Lemma strip_incl (s : str) (x : N) : In x (strip s) -> In x s.
Proof.
  unfold strip, rstrip. intros H. apply in_rev in H.
  apply lstrip_incl in H. apply in_rev in H. apply lstrip_incl, H.
Qed.

(** ** Console markup *)



Section MarkupFacts.

Variable env : Env.

Lemma str_eqb_refl (s : str) : str_eqb s s = true.
Proof. apply str_eqb_eq. reflexivity. Qed.

Lemma handler_fails_plain (name : str) :
  handler_fails env (mkTag name None) = false.
Proof.
  unfold handler_fails. simpl. destruct name as [|c name]; [reflexivity|].
  destruct c as [|p]; [reflexivity|].
  do 7 (destruct p as [p|p|]; try reflexivity).
Qed.

Lemma render_tags_open (tags style_stack : list Tag) (name : str)
                       (parameters : option str) :
  (forall closing, name <> 47%N :: closing) ->
  render_tags env (mkTag name parameters :: tags) style_stack =
  render_tags env tags
    (mkTag (Style_normalize env name) parameters :: style_stack).
Proof.
  intros H. destruct name as [|c rest]; [reflexivity|].
  assert (c <> 47%N) as Hc by (intros ->; apply (H rest); reflexivity).
  cbn [render_tags tag_name tag_parameters].
  destruct c as [|p]; [reflexivity|].
  do 6 (destruct p as [p|p|]; try reflexivity). congruence.
Qed.

Lemma nested_open (tags : list Tag) (opened : list str) (name : str) :
  (forall closing, name <> 47%N :: closing) ->
  nested (mkTag name None :: tags) opened = nested tags (name :: opened).
Proof.
  intros H. destruct name as [|c rest]; [reflexivity|].
  assert (c <> 47%N) as Hc by (intros ->; apply (H rest); reflexivity).
  cbn [nested tag_name tag_parameters].
  destruct c as [|p]; [reflexivity|].
  do 6 (destruct p as [p|p|]; try reflexivity). congruence.
Qed.

Lemma nested_render (tags : list Tag) (opened : list str) :
  nested tags opened = true ->
  render_tags env tags (stack_of env opened) = true.
Proof.
  revert opened. induction tags as [|[name parameters] tags IH];
    intros opened H; [reflexivity|].
  destruct parameters as [p|]; [discriminate|].
  assert ((exists closing, name = 47%N :: closing) \/
          (forall closing, name <> 47%N :: closing)) as [[closing ->]|Hn].
  { destruct name as [|c rest]; [right; discriminate|].
    destruct (N.eq_dec c 47) as [->|Hc]; [left; eauto|].
    right. intros closing Heq. inversion Heq. contradiction. }
  - cbn [nested tag_name tag_parameters] in H.
    destruct opened as [|top below]; [discriminate|].
    apply andb_true_iff in H. destruct H as [Hname Hrest].
    cbn [render_tags tag_name tag_parameters stack_of map].
    destruct (truthy_str (strip closing)) eqn:Et.
    + simpl in Hname. apply str_eqb_eq in Hname. rewrite Hname.
      cbn [pop_style tag_name]. rewrite str_eqb_refl.
      rewrite handler_fails_plain. apply IH, Hrest.
    + rewrite handler_fails_plain. apply IH, Hrest.
  - rewrite nested_open in H by exact Hn.
    rewrite render_tags_open by exact Hn.
    apply (IH (name :: opened)), H.
Qed.

(** Markup that passes the test is accepted, whatever the surroundings. *)
Lemma plain_markup_ok (markup : str) :
  plain_markup markup = true -> markup_ok env markup = true.
Proof. intros H. apply (nested_render _ []), H. Qed.

(** The texts of the program into which no text of the model or of the
    user goes: each passes the test. *)
Lemma render_markup_plain (markup : str) :
  plain_markup markup = true -> render_markup env markup = ret tt.
Proof.
  intros H. unfold render_markup. rewrite (plain_markup_ok _ H). reflexivity.
Qed.

Lemma console_print_plain (text : str) :
  plain_markup text = true -> console_print env text = emit (Printed text).
Proof.
  intros H. unfold console_print. rewrite (render_markup_plain _ H). reflexivity.
Qed.

Lemma console_status_plain (text : str) :
  plain_markup text = true -> console_status env text = emit (Status text).
Proof.
  intros H. unfold console_status. rewrite (render_markup_plain _ H). reflexivity.
Qed.

Lemma console_input_plain (prompt : str) :
  plain_markup prompt = true -> console_input env prompt = read_line prompt.
Proof.
  intros H. unfold console_input. rewrite (render_markup_plain _ H).
  unfold bind, ret. reflexivity.
Qed.

Lemma show_diff_runs (diff : str) :
  show_diff env diff = emit (Panel (lit "[yellow]Staged Diff[/yellow]") diff).
Proof.
  unfold show_diff, console_syntax_panel.
  rewrite render_markup_plain by (vm_compute; reflexivity). reflexivity.
Qed.

Lemma show_suggested_message_runs (msg : str) (st : State) :
  show_suggested_message env msg st =
  if markup_ok env (lit "[bold green]" ++ msg ++ lit "[/bold green]") then
    (Return tt,
     with_events st
       [Panel suggestion_title (lit "[bold green]" ++ msg ++ lit "[/bold green]")])
  else (Raise MarkupError, st).
Proof.
  unfold show_suggested_message, console_panel.
  rewrite render_markup_plain by (vm_compute; reflexivity).
  unfold render_markup, bind.
  destruct (markup_ok env (lit "[bold green]" ++ msg ++ lit "[/bold green]"));
    reflexivity.
Qed.

Lemma print_no_staged :
  console_print env no_staged_notice = emit (Printed no_staged_notice).
Proof. apply console_print_plain. vm_compute. reflexivity. Qed.

Lemma print_empty_message :
  console_print env empty_message_notice = emit (Printed empty_message_notice).
Proof. apply console_print_plain. vm_compute. reflexivity. Qed.

Lemma print_rejected :
  console_print env rejected_notice = emit (Printed rejected_notice).
Proof. apply console_print_plain. vm_compute. reflexivity. Qed.

Lemma print_invalid_choice :
  console_print env invalid_choice_notice = emit (Printed invalid_choice_notice).
Proof. apply console_print_plain. vm_compute. reflexivity. Qed.

Lemma print_generation_failed :
  console_print env generation_failed_notice =
  emit (Printed generation_failed_notice).
Proof. apply console_print_plain. vm_compute. reflexivity. Qed.

Lemma print_interrupted :
  console_print env interrupted_notice = emit (Printed interrupted_notice).
Proof. apply console_print_plain. vm_compute. reflexivity. Qed.

Lemma print_commit_error :
  console_print env (commit_error_notice None) =
  emit (Printed (commit_error_notice None)).
Proof. apply console_print_plain. vm_compute. reflexivity. Qed.

Lemma status_generating :
  console_status env (lit "[bold green]Generating commit message...[/bold green]") =
  emit (Status (lit "[bold green]Generating commit message...[/bold green]")).
Proof. apply console_status_plain. vm_compute. reflexivity. Qed.

Lemma status_regenerating :
  console_status env (lit "[bold magenta]Regenerating commit message...[/bold magenta]") =
  emit (Status (lit "[bold magenta]Regenerating commit message...[/bold magenta]")).
Proof. apply console_status_plain. vm_compute. reflexivity. Qed.

Lemma input_manual : console_input env manual_prompt = read_line manual_prompt.
Proof. apply console_input_plain. vm_compute. reflexivity. Qed.

Lemma input_review : console_input env review_prompt = read_line review_prompt.
Proof. apply console_input_plain. vm_compute. reflexivity. Qed.




End MarkupFacts.

(** Surroundings with the same two functions of rich accept the same
    markup. *)
Lemma markup_ok_agree (env1 env2 : Env) (markup : str) :
  (forall s, Style_normalize env1 s = Style_normalize env2 s) ->
  (forall s, handler_parses env1 s = handler_parses env2 s) ->
  markup_ok env1 markup = markup_ok env2 markup.
Proof.
  intros Hs Hh. unfold markup_ok. generalize (@nil Tag) as style_stack.
  induction (markup_tags markup) as [|tag tags IH]; intros style_stack;
    [reflexivity|].
  assert (forall t, handler_fails env1 t = handler_fails env2 t) as Hf.
  { intros t. unfold handler_fails.
    destruct (tag_name t); [reflexivity|].
    destruct (tag_parameters t); [rewrite Hh|]; reflexivity. }
  cbn [render_tags]. rewrite !Hs.
  destruct (tag_name tag) as [|c closing]; [apply IH|].
  destruct c as [|p]; [apply IH|].
  do 6 (destruct p as [p|p|]; try apply IH).
  cbv zeta. rewrite Hs.
  destruct (if truthy_str (strip closing)
            then pop_style (Style_normalize env2 (strip closing)) style_stack
            else match style_stack with
                 | [] => None
                 | top :: below => Some (top, below)
                 end) as [[open_tag stack']|]; [|reflexivity].
  rewrite Hf. destruct (handler_fails env2 open_tag); [reflexivity | apply IH].
Qed.

(** ** Progress: a computation finishes and reads, never un-reads, input *)

Lemma tame_ret {A} (a : A) : tame (ret a).
Proof. intros st; simpl; split; [discriminate | lia]. Qed.

Lemma tame_raise {A} (e : exn) : tame (@raise A e).
Proof. intros st; simpl; split; [discriminate | lia]. Qed.

Lemma tame_emit (e : event) : tame (emit e).
Proof. intros st; simpl; split; [discriminate | lia]. Qed.

Lemma tame_bind {A B} (m : M A) (k : A -> M B) :
  tame m -> (forall a, tame (k a)) -> tame (bind m k).
Proof.
  intros Hm Hk st. unfold bind. specialize (Hm st).
  destruct (m st) as [[a|e|] st1]; simpl in *.
  - destruct (Hk a st1) as [H1 H2]. split; [assumption | lia].
  - split; [discriminate | tauto].
  - destruct Hm as [Hm _]. contradiction.
Qed.

Lemma tame_try_catch {A} (m : M A) (h : exn -> M A) :
  tame m -> (forall e, tame (h e)) -> tame (try_catch m h).
Proof.
  intros Hm Hh st. unfold try_catch. specialize (Hm st).
  destruct (m st) as [[a|e|] st1]; simpl in *.
  - split; [discriminate | tauto].
  - destruct (Hh e st1) as [H1 H2]. split; [assumption | lia].
  - destruct Hm as [Hm _]. contradiction.
Qed.

Lemma tame_render_markup (env : Env) (markup : str) :
  tame (render_markup env markup).
Proof.
  unfold render_markup. destruct (markup_ok env markup);
    [apply tame_ret | apply tame_raise].
Qed.

Lemma tame_console_print (env : Env) (text : str) : tame (console_print env text).
Proof.
  apply tame_bind; [apply tame_render_markup | intros _; apply tame_emit].
Qed.

Lemma tame_console_status (env : Env) (text : str) :
  tame (console_status env text).
Proof.
  apply tame_bind; [apply tame_render_markup | intros _; apply tame_emit].
Qed.

Lemma tame_console_panel (env : Env) (title body : str) :
  tame (console_panel env title body).
Proof.
  apply tame_bind; [apply tame_render_markup | intros _].
  apply tame_bind; [apply tame_render_markup | intros _; apply tame_emit].
Qed.

Lemma tame_console_syntax_panel (env : Env) (title code : str) :
  tame (console_syntax_panel env title code).
Proof.
  apply tame_bind; [apply tame_render_markup | intros _; apply tame_emit].
Qed.

Lemma tame_read_line (p : str) : tame (read_line p).
Proof.
  intros st. unfold read_line.
  destruct (stdin st) as [|[s|] rest]; simpl; split; try discriminate; lia.
Qed.

Lemma tame_console_input (env : Env) (p : str) : tame (console_input env p).
Proof.
  apply tame_bind; [apply tame_render_markup | intros _; apply tame_read_line].
Qed.

Lemma render_markup_state (env : Env) (markup : str) (st : State) :
  snd (render_markup env markup st) = st.
Proof. unfold render_markup. destruct (markup_ok env markup); reflexivity. Qed.

Lemma console_input_reads (env : Env) (p : str) (st st' : State) (s : str) :
  console_input env p st = (Return s, st') ->
  length (stdin st') < length (stdin st).
Proof.
  unfold console_input, render_markup, bind.
  destruct (markup_ok env p); [|discriminate]. unfold ret, read_line.
  destruct (stdin st) as [|[l|] rest]; intros H; inversion H; subst; simpl; lia.
Qed.

Lemma reads_then_tame {A B} (env : Env) (p : str) (k : str -> M (A + B)) :
  (forall a, tame (k a)) ->
  forall st r st',
    bind (console_input env p) k st = (Return r, st') ->
    length (stdin st') < length (stdin st).
Proof.
  intros Hk st r st' H. unfold bind in H.
  destruct (console_input env p st) as [[s|e|] st1] eqn:E; try discriminate.
  apply console_input_reads in E.
  destruct (Hk s st1) as [_ Hle]. rewrite H in Hle. simpl in Hle. lia.
Qed.

Lemma while_fuel_tame {S A} (body : S -> M (S + A)) :
  advances body ->
  forall n s st,
    length (stdin st) < n ->
    fst (while_fuel n body s st) <> Unfinished /\
    length (stdin (snd (while_fuel n body s st))) <= length (stdin st).
Proof.
  intros [Ht Hadv]. induction n as [|n IH]; intros s st Hn; [lia|].
  simpl. unfold bind.
  destruct (Ht s st) as [Hfin Hle].
  destruct (body s st) as [[[s'|a]|e|] st1] eqn:E; simpl in *.
  - apply Hadv in E.
    destruct (IH s' st1) as [H1 H2]; [lia|]. split; [assumption | lia].
  - split; [discriminate | assumption].
  - split; [discriminate | assumption].
  - contradiction.
Qed.

(** With enough iterations allowed, their number does not matter. *)
Lemma while_fuel_irrelevant {S A} (body : S -> M (S + A)) :
  advances body ->
  forall n m s st,
    length (stdin st) < n -> length (stdin st) < m ->
    while_fuel n body s st = while_fuel m body s st.
Proof.
  intros [Ht Hadv]. induction n as [|n IH]; intros m s st Hn Hm; [lia|].
  destruct m as [|m]; [lia|].
  simpl. unfold bind.
  destruct (body s st) as [[[s'|a]|e|] st1] eqn:E; try reflexivity.
  apply Hadv in E. apply IH; lia.
Qed.

Lemma tame_while_True {S A} (body : S -> M (S + A)) (s : S) :
  advances body -> tame (while_True body s).
Proof.
  intros H st. unfold while_True. apply while_fuel_tame; [assumption | lia].
Qed.

(** [while True: body] is [body] followed by the loop again. *)
Lemma while_True_unfold {S A} (body : S -> M (S + A)) (s : S) (st : State) :
  advances body ->
  while_True body s st =
  (r <- body s ;;
   match r with
   | inl s' => while_True body s'
   | inr a => ret a
   end) st.
Proof.
  intros H. unfold while_True at 1. simpl. unfold bind.
  destruct (body s st) as [[[s'|a]|e|] st1] eqn:E; try reflexivity.
  unfold while_True. destruct H as [Ht Hadv].
  pose proof (Hadv _ _ _ _ E).
  apply while_fuel_irrelevant; [split; assumption | lia | lia].
Qed.

(** ** Every function of the program is tame *)

Create HintDb tame discriminated.

#[local] Hint Resolve tame_ret tame_raise tame_emit tame_console_input
  tame_console_print tame_console_status tame_console_panel
  tame_console_syntax_panel : tame.

Ltac tame_step :=
  match goal with
  | |- tame (bind _ _) => apply tame_bind
  | |- tame (try_catch _ _) => apply tame_try_catch
  | |- tame (if ?c then _ else _) => destruct c
  | |- tame (match ?x with _ => _ end) => destruct x
  | |- forall _, _ => intro
  | |- tame (sys_exit _) => apply tame_raise
  | |- tame (console_print _ _) => apply tame_console_print
  | |- tame (console_status _ _) => apply tame_console_status
  | |- tame (logger_log _ _) => apply tame_emit
  | |- tame (show_diff _ _) => apply tame_console_syntax_panel
  | |- tame (show_suggested_message _ _) => apply tame_console_panel
  | |- _ => solve [auto with tame]
  end.

Ltac tame_tac := repeat tame_step.

Section ProgramProgress.

Variable env : Env.

Lemma tame_check_output_git_diff : tame (check_output_git_diff env).
Proof. unfold check_output_git_diff. tame_tac. Qed.

Lemma tame_run_git_commit (msg : str) : tame (run_git_commit env msg).
Proof. unfold run_git_commit. tame_tac. Qed.

Lemma tame_chat_completions_create (token : option str) (model prompt : str) :
  tame (chat_completions_create env token model prompt).
Proof.
  intros st. unfold chat_completions_create.
  destruct (chat_completion env (api_calls st)); simpl; split;
    try discriminate; lia.
Qed.

#[local] Hint Resolve tame_check_output_git_diff tame_run_git_commit
  tame_chat_completions_create : tame.

Lemma tame_get_staged_diff : tame (get_staged_diff env).
Proof. unfold get_staged_diff. tame_tac. Qed.

Lemma tame_generate_commit_message (diff model : str) (tok : option str) :
  tame (generate_commit_message env diff model tok).
Proof. unfold generate_commit_message. tame_tac. Qed.

Lemma tame_commit_with_message (msg : str) : tame (commit_with_message env msg).
Proof. unfold commit_with_message. tame_tac. Qed.

Lemma manual_round_advances :
  advances
    (fun _ : unit =>
       line <- console_input env manual_prompt ;;
       let msg := strip line in
       if truthy_str msg then ret (inr msg)
       else console_print env empty_message_notice ;; @sys_exit (unit + str) 1).
Proof.
  split.
  - intros _. cbv zeta. tame_tac.
  - intros _ st s' st'. apply reads_then_tame.
    intros a. cbv zeta. tame_tac.
Qed.

Lemma tame_prompt_manual_message : tame (prompt_manual_message env).
Proof. apply tame_while_True, manual_round_advances. Qed.

#[local] Hint Resolve tame_get_staged_diff tame_generate_commit_message
  tame_commit_with_message tame_prompt_manual_message : tame.

Lemma review_round_advances (diff model : str) (tok : option str) :
  advances (review_round env diff model tok).
Proof.
  split.
  - intros msg. unfold review_round. cbv zeta. tame_tac.
  - intros msg st s' st'. apply reads_then_tame.
    intros a. cbv zeta. tame_tac.
Qed.

Lemma tame_prompt_commit_message (msg diff model : str) (tok : option str) :
  tame (prompt_commit_message env msg diff model tok).
Proof. apply tame_while_True, review_round_advances. Qed.

#[local] Hint Resolve tame_prompt_commit_message : tame.

Lemma tame_main : tame (main env).
Proof. unfold main, main_handler. cbv zeta. tame_tac. Qed.

(** The loop of [prompt_commit_message], one round at a time. *)
Lemma prompt_commit_message_unfold (msg diff model : str) (tok : option str)
                                   (st : State) :
  prompt_commit_message env msg diff model tok st =
  (r <- review_round env diff model tok msg ;;
   match r with
   | inl msg' => prompt_commit_message env msg' diff model tok
   | inr a => ret a
   end) st.
Proof.
  unfold prompt_commit_message.
  apply while_True_unfold, review_round_advances.
Qed.

(** [main] always finishes: the iteration bound is never what ends a run. *)
Lemma main_finishes (st : State) : fst (main env st) <> Unfinished.
Proof. apply tame_main. Qed.

End ProgramProgress.

(** ** A Hoare logic for the monad *)

Lemma hoare_conseq {A} (P P' : State -> Prop) (m : M A)
                   (Q Q' : result A -> State -> Prop) :
  (forall st, P' st -> P st) ->
  (forall r st, Q r st -> Q' r st) ->
  hoare P m Q -> hoare P' m Q'.
Proof. intros HP HQ H st Hst. apply HQ, H, HP, Hst. Qed.

Lemma hoare_pure {A} (P : State -> Prop) (phi : Prop) (m : M A)
                 (Q : result A -> State -> Prop) :
  (phi -> hoare P m Q) -> hoare (fun st => P st /\ phi) m Q.
Proof. intros H st [HP Hphi]. apply H; assumption. Qed.

Lemma hoare_ret {A} (P : State -> Prop) (a : A) Qv Qe :
  (forall st, P st -> Qv a st) -> hoare P (ret a) (post Qv Qe).
Proof. intros H st Hst. simpl. auto. Qed.

Lemma hoare_raise {A} (P : State -> Prop) (e : exn) (Qv : A -> State -> Prop) Qe :
  (forall st, P st -> Qe e st) -> hoare P (raise e) (post Qv Qe).
Proof. intros H st Hst. simpl. auto. Qed.

Lemma hoare_bind {A B} (P : State -> Prop) (m : M A) (k : A -> M B)
                 (Q1 : A -> State -> Prop) (Qe1 Qe : exn -> State -> Prop)
                 (Q2 : B -> State -> Prop) :
  hoare P m (post Q1 Qe1) ->
  (forall e st, Qe1 e st -> Qe e st) ->
  (forall a, hoare (Q1 a) (k a) (post Q2 Qe)) ->
  hoare P (bind m k) (post Q2 Qe).
Proof.
  intros Hm He Hk st Hst. unfold bind. specialize (Hm st Hst).
  destruct (m st) as [[a|e|] st1]; simpl in *.
  - apply Hk, Hm.
  - apply He, Hm.
  - exact I.
Qed.

Lemma hoare_try_catch {A} (P : State -> Prop) (m : M A) (h : exn -> M A)
                      (Qv : A -> State -> Prop) (Qe1 Qe : exn -> State -> Prop) :
  hoare P m (post Qv Qe1) ->
  (forall e, hoare (Qe1 e) (h e) (post Qv Qe)) ->
  hoare P (try_catch m h) (post Qv Qe).
Proof.
  intros Hm Hh st Hst. unfold try_catch. specialize (Hm st Hst).
  destruct (m st) as [[a|e|] st1]; simpl in *.
  - exact Hm.
  - apply Hh, Hm.
  - exact I.
Qed.

Lemma hoare_while_fuel {S A} (Inv : S -> State -> Prop) (body : S -> M (S + A))
                       (Qv : A -> State -> Prop) (Qe : exn -> State -> Prop) :
  (forall s,
      hoare (Inv s) (body s)
            (post (fun r st => match r with
                               | inl s' => Inv s' st
                               | inr a => Qv a st
                               end) Qe)) ->
  forall n s, hoare (Inv s) (while_fuel n body s) (post Qv Qe).
Proof.
  intros Hbody. induction n as [|n IH]; intros s.
  - intros st _. exact I.
  - simpl. eapply hoare_bind; [apply Hbody | auto |].
    intros [s'|a].
    + apply IH.
    + apply hoare_ret. auto.
Qed.

Lemma hoare_while_True {S A} (Inv : S -> State -> Prop) (body : S -> M (S + A))
                       (Qv : A -> State -> Prop) (Qe : exn -> State -> Prop) :
  (forall s,
      hoare (Inv s) (body s)
            (post (fun r st => match r with
                               | inl s' => Inv s' st
                               | inr a => Qv a st
                               end) Qe)) ->
  forall s, hoare (Inv s) (while_True body s) (post Qv Qe).
Proof.
  intros Hbody s st Hst. unfold while_True.
  apply (hoare_while_fuel Inv body Qv Qe Hbody _ s st Hst).
Qed.

(** ** What each function does, in closed form *)

Section ClosedForms.

Variable env : Env.

Lemma get_staged_diff_runs (st : State) :
  get_staged_diff env st =
  match git_diff_staged env with
  | Exited rc text =>
      if (rc =? 0)%Z then
        if negb (truthy_str (strip (universal_newlines text))) then
          (Return None, with_events st [GitDiff (Exited rc text)])
        else if MAX_DIFF_CHARS <? length (strip (universal_newlines text)) then
          (Return (Some (firstn MAX_DIFF_CHARS (strip (universal_newlines text))
                           ++ truncation_marker)),
           with_events st
             [GitDiff (Exited rc text);
              Logged LvlWarning (lit "Diff too long, truncating to 5000 chars")])
        else
          (Return (Some (strip (universal_newlines text))),
           with_events st [GitDiff (Exited rc text)])
      else
        (Return None,
         with_events st
           [GitDiff (Exited rc text);
            Logged LvlError
                   (lit "Error getting git diff: " ++ universal_newlines text)])
  | NotFound =>
      (Return None,
       with_events st [GitDiff NotFound; Logged LvlError git_not_found_message])
  | Interrupted =>
      (Raise KeyboardInterrupt, with_events st [GitDiff Interrupted])
  | Crashed x =>
      (Raise (OSError x), with_events st [GitDiff (Crashed x)])
  end.
Proof.
  unfold get_staged_diff, try_catch, check_output_git_diff, bind,
    logger_log, emit, raise, ret, with_events.
  destruct (git_diff_staged env) as [rc text| | |x];
    cbv zeta; cbn [stdin api_calls trace].
  - destruct (rc =? 0)%Z; cbn [stdin api_calls trace py_str].
    + destruct (negb (truthy_str (strip (universal_newlines text))));
        [reflexivity|].
      destruct (MAX_DIFF_CHARS <? length (strip (universal_newlines text)));
        cbn [stdin api_calls trace]; rewrite <- ?app_assoc; reflexivity.
    + rewrite <- app_assoc. reflexivity.
  - rewrite <- app_assoc. reflexivity.
  - reflexivity.
  - reflexivity.
Qed.

Lemma generate_commit_message_runs (diff model : str) (tok : option str)
                                   (st : State) :
  generate_commit_message env diff model tok st =
  match chat_completion env (api_calls st) with
  | ApiContent c =>
      (Return (Some (strip c)), after_call env st tok model diff [])
  | ApiHTTPError e =>
      (Return None,
       after_call env st tok model diff [Logged LvlError (lit "API error: " ++ e)])
  | ApiRequestException e =>
      (Return None,
       after_call env st tok model diff [Logged LvlError (lit "API error: " ++ e)])
  | ApiUnexpected e =>
      (Return None,
       after_call env st tok model diff
         [Logged LvlError (lit "Unexpected error generating commit message")])
  | ApiInterrupted =>
      (Raise KeyboardInterrupt, after_call env st tok model diff [])
  end.
Proof.
  unfold generate_commit_message, try_catch, chat_completions_create, bind,
    logger_log, emit, raise, ret, after_call.
  destruct (chat_completion env (api_calls st));
    cbn [stdin api_calls trace is_Exception];
    rewrite <- ?app_assoc; reflexivity.
Qed.

Lemma prompt_manual_message_line (s : str) (rest : list console_in)
                                 (n : nat) (tr : list event) :
  prompt_manual_message env (mkState (Line s :: rest) n tr) =
  if truthy_str (strip s) then
    (Return (strip s),
     mkState rest n (tr ++ [Input manual_prompt (Some (Line s))]))
  else
    (Raise (SystemExit 1),
     mkState rest n (tr ++ [Input manual_prompt (Some (Line s));
                            Printed empty_message_notice])).
Proof.
  unfold prompt_manual_message, while_True.
  cbn [stdin length while_fuel]. rewrite input_manual, print_empty_message.
  unfold bind at 1. unfold bind at 1. unfold read_line.
  cbn [stdin api_calls trace].
  destruct (truthy_str (strip s)).
  - reflexivity.
  - unfold bind, emit, sys_exit, raise.
    cbn [stdin api_calls trace]. rewrite <- app_assoc. reflexivity.
Qed.

(** One round of review on the answer [s]. *)
Lemma review_round_line (diff model : str) (tok : option str) (msg s : str)
                        (rest : list console_in) (n : nat) (tr : list event) :
  let st1 := mkState rest n (tr ++ [Input review_prompt (Some (Line s))]) in
  review_round env diff model tok msg (mkState (Line s :: rest) n tr) =
  match classify (lower (strip s)) with
  | Accept => (Return (inr msg), st1)
  | Reject => (Raise (SystemExit 0), with_events st1 [Printed rejected_notice])
  | Edit => (m <- prompt_manual_message env ;; ret (inl m)) st1
  | Regenerate =>
      (emit (Status (lit "[bold magenta]Regenerating commit message...[/bold magenta]")) ;;
       g <- generate_commit_message env diff model tok ;;
       if truthy g then
         show_suggested_message env (unwrap g) ;;
         ret (inl (unwrap g))
       else
         m <- prompt_manual_message env ;;
         ret (inl m)) st1
  | Invalid => (Return (inl msg), with_events st1 [Printed invalid_choice_notice])
  end.
Proof.
  intros st1. unfold review_round, classify.
  rewrite input_review, print_rejected, print_invalid_choice,
    status_regenerating.
  unfold bind at 1. unfold read_line. cbn [stdin api_calls trace].
  fold st1.
  destruct (in_list (lower (strip s)) [lit "y"; lit "yes"; lit ""]); [reflexivity|].
  destruct (in_list (lower (strip s)) [lit "n"; lit "no"]); [reflexivity|].
  destruct (in_list (lower (strip s)) [lit "e"; lit "edit"]); [reflexivity|].
  destruct (in_list (lower (strip s)) [lit "r"; lit "regen"; lit "regenerate"]);
    reflexivity.
Qed.

(** [main], with what its constant texts come to. *)
Lemma main_unfold :
  main env =
  try_catch
    (diff <- get_staged_diff env ;;
     if negb (truthy diff) then
       emit (Printed no_staged_notice) ;;
       sys_exit 1
     else
       emit (Panel (lit "[yellow]Staged Diff[/yellow]") (unwrap diff)) ;;
       emit (Status (lit "[bold green]Generating commit message...[/bold green]")) ;;
       msg <- generate_commit_message env (unwrap diff) (args_model env)
                                      (HF_TOKEN env) ;;
       msg <- (if truthy msg then
                 show_suggested_message env (unwrap msg) ;;
                 prompt_commit_message env (unwrap msg) (unwrap diff)
                                       (args_model env) (HF_TOKEN env)
               else
                 emit (Printed generation_failed_notice) ;;
                 msg <- prompt_manual_message env ;;
                 if negb (truthy_str msg) then
                   emit (Printed empty_message_notice) ;;
                   sys_exit 1
                 else ret msg) ;;
       commit_with_message env msg)
    (main_handler env).
Proof.
  unfold main, show_diff, console_syntax_panel. cbv zeta.
  rewrite print_no_staged, status_generating, print_generation_failed,
    print_empty_message.
  rewrite (render_markup_plain env (lit "[yellow]Staged Diff[/yellow]"))
    by (vm_compute; reflexivity).
  reflexivity.
Qed.

Lemma main_handler_runs (e : exn) :
  main_handler env e =
  match e with
  | KeyboardInterrupt => emit (Printed interrupted_notice) ;; sys_exit 0
  | _ => raise e
  end.
Proof. unfold main_handler. rewrite print_interrupted. reflexivity. Qed.

End ClosedForms.

(** ** The shape of a run before the commit step *)

Lemma clean_snoc (tr : list event) (e : event) :
  clean tr -> ordinary e = true -> clean (tr ++ [e]).
Proof.
  unfold clean. intros H1 H2. rewrite forallb_app, H1. simpl. rewrite H2.
  reflexivity.
Qed.

Lemma clean_app (a b : list event) : clean (a ++ b) <-> clean a /\ clean b.
Proof. unfold clean. rewrite forallb_app, andb_true_iff. tauto. Qed.

Lemma precommit_ret {A} (phi : A -> Prop) (a : A) :
  phi a -> precommit phi (ret a).
Proof. intros H. apply hoare_ret. auto. Qed.

Lemma precommit_emit (e : event) :
  ordinary e = true -> precommit (fun _ => True) (emit e).
Proof.
  intros He st Hst. simpl. split; [apply clean_snoc; assumption | exact I].
Qed.

Lemma precommit_bind {A B} (phi : A -> Prop) (psi : B -> Prop)
                     (m : M A) (k : A -> M B) :
  precommit phi m ->
  (forall a, phi a -> precommit psi (k a)) ->
  precommit psi (bind m k).
Proof.
  intros Hm Hk. eapply hoare_bind; [exact Hm | auto |].
  intros a. apply hoare_pure. intros Ha. apply Hk, Ha.
Qed.

Lemma precommit_while_True {S A} (I : S -> Prop) (phi : A -> Prop)
                           (body : S -> M (S + A)) :
  (forall s, I s ->
             precommit (fun r => match r with
                                 | inl s' => I s'
                                 | inr a => phi a
                                 end) (body s)) ->
  forall s, I s -> precommit phi (while_True body s).
Proof.
  intros Hbody s Hs.
  pose proof (hoare_while_True
                (fun s st => clean (trace st) /\ I s) body
                (fun a st => clean (trace st) /\ phi a)
                (fun e st => exits e (trace st))) as H.
  intros st Hst. apply H; [|split; assumption].
  clear s Hs st Hst H. intros s st [Hc Hs].
  specialize (Hbody s Hs st Hc).
  destruct (body s st) as [[[s'|a]|e|] st1]; simpl in *; assumption.
Qed.

Lemma asked_clean (p s : str) (tr : list event) :
  asked p s tr -> clean tr.
Proof. intros [tr0 [Hc ->]]. apply clean_snoc; [assumption | reflexivity]. Qed.

Lemma read_line_asked (p : str) :
  hoare (fun st => clean (trace st)) (read_line p)
        (post (fun s st => asked p s (trace st))
              (fun e st => exits e (trace st))).
Proof.
  intros st Hst. unfold read_line.
  destruct (stdin st) as [|[s|] rest]; simpl.
  - apply exits_failure; [reflexivity|]. apply clean_snoc; [assumption | reflexivity].
  - exists (trace st). split; [assumption | reflexivity].
  - apply exits_interrupt; [assumption | reflexivity | reflexivity].
Qed.

(** A text that rich does not accept ends the part before the commit with
    [MarkupError], nothing having been shown. *)
Lemma precommit_render_markup (env : Env) (markup : str) :
  precommit (fun _ => True) (render_markup env markup).
Proof.
  intros st Hst. unfold render_markup.
  destruct (markup_ok env markup); simpl.
  - split; [assumption | exact I].
  - apply exits_failure; [reflexivity | assumption].
Qed.

(** After the answer [s] to prompt [p], a continuation that only needs a
    clean trace. *)
Lemma after_asked {A} (phi : A -> Prop) (p s : str) (m : M A) :
  precommit phi m ->
  hoare (fun st => asked p s (trace st)) m
        (post (fun a st => clean (trace st) /\ phi a)
              (fun e st => exits e (trace st))).
Proof.
  apply hoare_conseq; [|auto]. intros st. apply asked_clean.
Qed.

Lemma precommit_no_staged {A} (env : Env) (phi : A -> Prop) :
  precommit phi (console_print env no_staged_notice ;; sys_exit 1).
Proof.
  rewrite print_no_staged. intros st Hst. simpl. apply exits_no_staged.
  assumption.
Qed.

Lemma suggestion_ordinary (msg : str) :
  msg <> [] ->
  ordinary (Panel suggestion_title
                  (lit "[bold green]" ++ msg ++ lit "[/bold green]")) = true.
Proof.
  intros Hmsg. unfold ordinary, is_blank_suggestion.
  cbn [is_interrupt is_commit is_notice negb andb].
  replace (str_eqb (lit "[bold green]" ++ msg ++ lit "[/bold green]")
                   (lit "[bold green]" ++ [] ++ lit "[/bold green]"))
    with false; [rewrite andb_false_r; reflexivity |].
  symmetry. apply not_true_iff_false. rewrite str_eqb_eq. intros Heq.
  apply (f_equal (@length N)) in Heq. rewrite !length_app in Heq.
  destruct msg; [congruence | simpl in Heq; lia].
Qed.

Section ProgramShape.

Variable env : Env.

Lemma precommit_show_suggested_message (msg : str) :
  msg <> [] -> precommit (fun _ => True) (show_suggested_message env msg).
Proof.
  intros Hmsg st Hst. rewrite show_suggested_message_runs.
  destruct (markup_ok env (lit "[bold green]" ++ msg ++ lit "[/bold green]"));
    simpl.
  - split; [|exact I]. apply clean_snoc; [assumption|].
    apply suggestion_ordinary, Hmsg.
  - apply exits_failure; [reflexivity | assumption].
Qed.

Lemma precommit_get_staged_diff : precommit (fun _ => True) (get_staged_diff env).
Proof.
  intros st Hst. rewrite get_staged_diff_runs. unfold with_events.
  destruct (git_diff_staged env) as [rc text| | |x];
    [destruct (rc =? 0)%Z;
     [destruct (negb (truthy_str (strip (universal_newlines text))));
      [|destruct (MAX_DIFF_CHARS <? length (strip (universal_newlines text)))]|]|..];
    cbn [post fst snd trace].
  - split; [|exact I]. apply clean_snoc; [assumption | reflexivity].
  - split; [|exact I]. apply clean_app. split; [assumption | reflexivity].
  - split; [|exact I]. apply clean_snoc; [assumption | reflexivity].
  - split; [|exact I]. apply clean_app. split; [assumption | reflexivity].
  - split; [|exact I]. apply clean_app. split; [assumption | reflexivity].
  - apply exits_interrupt; [assumption | reflexivity | reflexivity].
  - apply exits_failure; [reflexivity|]. apply clean_snoc; [assumption | reflexivity].
Qed.

Lemma precommit_generate_commit_message (diff model : str) (tok : option str) :
  precommit (fun _ => True) (generate_commit_message env diff model tok).
Proof.
  intros st Hst. rewrite generate_commit_message_runs. unfold after_call.
  destruct (chat_completion env (api_calls st)); cbn [post fst snd trace].
  - split; [|exact I]. apply clean_snoc; [assumption | reflexivity].
  - split; [|exact I]. apply clean_app. split; [assumption | reflexivity].
  - split; [|exact I]. apply clean_app. split; [assumption | reflexivity].
  - split; [|exact I]. apply clean_app. split; [assumption | reflexivity].
  - apply exits_interrupt; [assumption | reflexivity | reflexivity].
Qed.

Lemma precommit_prompt_manual_message :
  precommit (fun m : str => m <> []) (prompt_manual_message env).
Proof.
  unfold prompt_manual_message. rewrite input_manual, print_empty_message.
  apply (precommit_while_True (fun _ : unit => True)); [|exact I].
  intros _ _. eapply hoare_bind; [apply read_line_asked | auto |].
  intros line. cbv zeta.
  destruct (truthy_str (strip line)) eqn:E.
  - apply after_asked, precommit_ret. apply truthy_str_true, E.
  - intros st [tr0 [Hc Htr]]. simpl. rewrite Htr, <- app_assoc. simpl.
    apply exits_empty; [assumption | apply truthy_str_false, E].
Qed.

Lemma precommit_review_round (diff model : str) (tok : option str) (msg : str) :
  msg <> [] ->
  precommit (fun r : str + str => match r with
                                  | inl m => m <> []
                                  | inr m => m <> []
                                  end)
            (review_round env diff model tok msg).
Proof.
  intros Hmsg. unfold review_round.
  rewrite input_review, print_rejected, print_invalid_choice,
    status_regenerating.
  eapply hoare_bind; [apply read_line_asked | auto |].
  intros line. cbv zeta.
  destruct (in_list (lower (strip line)) [lit "y"; lit "yes"; lit ""]) eqn:Ey;
    [apply after_asked, precommit_ret; exact Hmsg|].
  destruct (in_list (lower (strip line)) [lit "n"; lit "no"]) eqn:En.
  { intros st [tr0 [Hc Htr]]. simpl. rewrite Htr, <- app_assoc. simpl.
    apply exits_rejected; [assumption|].
    unfold classify. rewrite Ey, En. reflexivity. }
  apply after_asked.
  destruct (in_list (lower (strip line)) [lit "e"; lit "edit"]).
  { eapply precommit_bind; [apply precommit_prompt_manual_message|].
    intros m Hm. apply precommit_ret. exact Hm. }
  destruct (in_list (lower (strip line)) [lit "r"; lit "regen"; lit "regenerate"]).
  { eapply precommit_bind; [apply precommit_emit; reflexivity|]. intros _ _.
    eapply precommit_bind; [apply precommit_generate_commit_message|].
    intros g _. destruct (truthy g) eqn:Eg.
    - eapply precommit_bind;
        [apply precommit_show_suggested_message, truthy_unwrap, Eg|].
      intros _ _. apply precommit_ret. apply truthy_unwrap, Eg.
    - eapply precommit_bind; [apply precommit_prompt_manual_message|].
      intros m Hm. apply precommit_ret. exact Hm. }
  eapply precommit_bind; [apply precommit_emit; vm_compute; reflexivity|].
  intros _ _. apply precommit_ret. exact Hmsg.
Qed.

Lemma precommit_prompt_commit_message (msg diff model : str) (tok : option str) :
  msg <> [] ->
  precommit (fun m : str => m <> []) (prompt_commit_message env msg diff model tok).
Proof.
  unfold prompt_commit_message.
  apply (precommit_while_True (fun m : str => m <> [])).
  intros s Hs. apply precommit_review_round, Hs.
Qed.

End ProgramShape.

(** ** The commit step and whole runs *)

Section WholeRuns.

Variable env : Env.

Lemma commit_with_message_runs (msg : str) (st : State) :
  commit_with_message env msg st =
  (fst (commit_events env msg),
   mkState (stdin st) (api_calls st) (trace st ++ snd (commit_events env msg))).
Proof.
  unfold commit_with_message, commit_events, try_catch, run_git_commit.
  destruct (git_commit env msg) as [rc text| | |x];
    [destruct (rc =? 0)%Z|..].
  - unfold console_print, render_markup, bind, emit, ret, raise.
    destruct (markup_ok env (committed_notice msg)); simpl;
      repeat rewrite <- app_assoc; reflexivity.
  - assert (Hok : markup_ok env (commit_error_notice None) = true)
      by (apply plain_markup_ok; vm_compute; reflexivity).
    unfold console_print, render_markup, bind, logger_log, emit, raise, ret.
    cbv beta iota. cbn [stdin api_calls trace py_str fst snd].
    rewrite Hok. cbv beta iota. cbn [stdin api_calls trace fst snd].
    repeat rewrite <- app_assoc. reflexivity.
  - reflexivity.
  - reflexivity.
  - reflexivity.
Qed.

Lemma commit_events_interrupted (msg : str) (evs : list event) :
  commit_events env msg = (Raise KeyboardInterrupt, evs) ->
  git_commit env msg = Interrupted /\ evs = [GitCommit msg Interrupted].
Proof.
  unfold commit_events.
  destruct (git_commit env msg) as [rc text| | |x];
    [destruct (rc =? 0)%Z;
     [destruct (markup_ok env (committed_notice msg))|]|..];
    intros H; inversion H; auto.
Qed.

Lemma commit_events_not_interrupted (msg : str) (r : result unit) (evs : list event) :
  commit_events env msg = (r, evs) ->
  r <> Raise KeyboardInterrupt ->
  git_commit env msg <> Interrupted.
Proof.
  unfold commit_events. intros H Hr Hi. rewrite Hi in H. inversion H. congruence.
Qed.

Lemma precommit_ends {A} (phi : A -> Prop) (m : M A) (Qv : A -> State -> Prop) :
  precommit phi m ->
  (forall a st, clean (trace st) -> phi a -> Qv a st) ->
  hoare (fun st => clean (trace st)) m
        (post Qv (fun e st => ends env (Raise e) (trace st))).
Proof.
  intros H HQ. eapply hoare_conseq; [| |exact H]; [auto|].
  intros [a|e|] st; simpl; [intros []; auto | apply ends_early | auto].
Qed.

Lemma main_body_ends (hf_token : option str) :
  hoare (fun st => clean (trace st))
    (diff <- get_staged_diff env ;;
     if negb (truthy diff) then
       console_print env no_staged_notice ;;
       sys_exit 1
     else
       let diff := unwrap diff in
       show_diff env diff ;;
       console_status env (lit "[bold green]Generating commit message...[/bold green]") ;;
       msg <- generate_commit_message env diff (args_model env) hf_token ;;
       msg <- (if truthy msg then
                 show_suggested_message env (unwrap msg) ;;
                 prompt_commit_message env (unwrap msg) diff (args_model env) hf_token
               else
                 console_print env generation_failed_notice ;;
                 msg <- prompt_manual_message env ;;
                 if negb (truthy_str msg) then
                   console_print env empty_message_notice ;;
                   sys_exit 1
                 else ret msg) ;;
       commit_with_message env msg)
    (post (fun a st => ends env (Return a) (trace st))
          (fun e st => ends env (Raise e) (trace st))).
Proof.
  rewrite status_generating, print_generation_failed, print_empty_message.
  eapply hoare_bind;
    [apply precommit_get_staged_diff | intros; apply ends_early; assumption |].
  intros diff. apply hoare_pure. intros _.
  destruct (negb (truthy diff)).
  { apply (precommit_ends (fun _ => False)); [apply precommit_no_staged | tauto]. }
  cbv zeta. rewrite show_diff_runs.
  eapply hoare_bind;
    [apply precommit_emit; reflexivity | intros; apply ends_early; assumption |].
  intros u. apply hoare_pure. intros _. clear u.
  eapply hoare_bind;
    [apply precommit_emit; reflexivity | intros; apply ends_early; assumption |].
  intros u. apply hoare_pure. intros _. clear u.
  eapply hoare_bind;
    [apply precommit_generate_commit_message
    | intros; apply ends_early; assumption |].
  intros g. apply hoare_pure. intros _.
  eapply hoare_bind with (Q1 := fun m st => clean (trace st) /\ m <> [])
                        (Qe1 := fun e st => exits e (trace st));
    [| intros; apply ends_early; assumption |].
  - destruct (truthy g) eqn:Eg.
    + eapply precommit_bind;
        [apply precommit_show_suggested_message, truthy_unwrap, Eg|].
      intros _ _.
      apply precommit_prompt_commit_message, truthy_unwrap, Eg.
    + eapply precommit_bind; [apply precommit_emit; vm_compute; reflexivity|].
      intros _ _.
      eapply precommit_bind; [apply precommit_prompt_manual_message|].
      intros m Hm. destruct (negb (truthy_str m)) eqn:Em.
      * apply negb_true_iff, truthy_str_false in Em. contradiction.
      * apply precommit_ret, Hm.
  - intros msg. apply hoare_pure. intros Hmsg st Hst.
    rewrite commit_with_message_runs. simpl.
    destruct (commit_events env msg) as [r evs] eqn:E. simpl.
    destruct r as [[]|e|]; simpl.
    + eapply ends_commit; eassumption.
    + eapply ends_commit; eassumption.
    + exact I.
Qed.

Lemma main_hoare :
  hoare (fun st => clean (trace st)) (main env)
        (post (fun a st => finished env (Return a) (trace st))
              (fun e st => finished env (Raise e) (trace st))).
Proof.
  unfold main. cbv zeta.
  eapply hoare_try_catch with (Qe1 := fun e st => ends env (Raise e) (trace st)).
  - eapply hoare_conseq; [| |apply main_body_ends]; [auto|].
    intros [a|e|] st; simpl; auto.
    intros H. inversion H; subst.
    eapply fin_commit; try eassumption.
    eapply commit_events_not_interrupted; [eassumption | discriminate].
  - intros e st Hst. unfold main_handler. rewrite print_interrupted.
    assert (Hother : e <> KeyboardInterrupt -> finished env (Raise e) (trace st)).
    { intros Hne. inversion Hst; subst.
      - apply fin_exit; assumption.
      - eapply fin_commit; try eassumption.
        eapply commit_events_not_interrupted; [eassumption | congruence]. }
    destruct e; try (simpl; apply Hother; discriminate).
    simpl. inversion Hst; subst.
    + match goal with H : exits _ _ |- _ => inversion H; subst end.
      * rewrite <- app_assoc. simpl. apply fin_interrupted; assumption.
      * simpl in *. discriminate.
    + match goal with H : commit_events _ _ = _ |- _ =>
        apply commit_events_interrupted in H; destruct H as [Hi ->] end.
      rewrite <- app_assoc. simpl. apply fin_commit_interrupted; assumption.
Qed.

(** Every run of [main] ends in one of the ways of [finished]. *)
Lemma main_finished (st : State) :
  clean (trace st) ->
  finished env (fst (main env st)) (trace (snd (main env st))).
Proof.
  intros Hst. pose proof (main_hoare st Hst) as H.
  pose proof (main_finishes env st) as Hfin.
  destruct (fst (main env st)); simpl in H; [assumption | assumption | congruence].
Qed.

End WholeRuns.


(** ** Reading a finished run *)

Lemma existsb_clean (f : event -> bool) (tr : list event) :
  (forall e, f e = true -> ordinary e = false) ->
  clean tr -> existsb f tr = false.
Proof.
  intros Hf. unfold clean. induction tr as [|e tr IH]; simpl; [reflexivity|].
  rewrite andb_true_iff. intros [He Htr]. rewrite (IH Htr), orb_false_r.
  destruct (f e) eqn:E; [|reflexivity]. apply Hf in E. congruence.
Qed.

Lemma existsb_clean_app (f : event -> bool) (tr tail : list event) :
  (forall e, f e = true -> ordinary e = false) ->
  clean tr -> existsb f (tr ++ tail) = existsb f tail.
Proof.
  intros Hf Hc. rewrite existsb_app, (existsb_clean f tr Hf Hc). reflexivity.
Qed.


Lemma commit_not_ordinary (e : event) : is_commit e = true -> ordinary e = false.
Proof.
  intros H. unfold ordinary. rewrite H. destruct (is_interrupt e); reflexivity.
Qed.

Lemma notice_not_ordinary (e : event) : is_notice e = true -> ordinary e = false.
Proof.
  intros H. unfold ordinary. rewrite H.
  destruct (is_interrupt e), (is_commit e); reflexivity.
Qed.

Lemma blank_suggestion_not_ordinary (e : event) :
  is_blank_suggestion e = true -> ordinary e = false.
Proof.
  intros H. unfold ordinary. rewrite H.
  destruct (is_interrupt e), (is_commit e), (is_notice e); reflexivity.
Qed.

Lemma abort_is_notice (e : event) : is_abort e = true -> is_notice e = true.
Proof.
  destruct e; try discriminate.
  unfold is_abort, is_no_staged, is_empty_notice, is_rejection, is_notice,
    in_list, existsb.
  destruct (str_eqb text no_staged_notice), (str_eqb text empty_message_notice),
    (str_eqb text rejected_notice); try discriminate; reflexivity.
Qed.

Lemma abort_not_ordinary (e : event) : is_abort e = true -> ordinary e = false.
Proof. intros H. apply notice_not_ordinary, abort_is_notice, H. Qed.


Lemma empty_notice_not_ordinary (e : event) :
  is_empty_notice e = true -> ordinary e = false.
Proof.
  intros H. apply abort_not_ordinary. unfold is_abort. rewrite H.
  destruct (is_no_staged e); reflexivity.
Qed.

Lemma interrupt_not_printed (f : event -> bool) (e : event) :
  (forall ev, f ev = true -> exists t, ev = Printed t) ->
  is_interrupt e = true -> f e = false.
Proof.
  intros Hf He. destruct (f e) eqn:E; [|reflexivity].
  destruct (Hf e E) as [t ->]. discriminate.
Qed.

Lemma empty_notice_printed (ev : event) :
  is_empty_notice ev = true -> exists t, ev = Printed t.
Proof. destruct ev; try discriminate. eauto. Qed.

Lemma run_finished (env : Env) (lines : list console_in) :
  finished env (fst (run env lines)) (trace (snd (run env lines))).
Proof. apply main_finished. reflexivity. Qed.


Lemma commit_events_no_abort (env : Env) (msg : str) (r : result unit)
                             (evs : list event) :
  commit_events env msg = (r, evs) ->
  existsb is_abort evs = false.
Proof.
  unfold commit_events. intros H.
  destruct (git_commit env msg) as [rc text| | |x];
    [destruct (rc =? 0)%Z;
     [destruct (markup_ok env (committed_notice msg))|]|..]; inversion H; subst; reflexivity.
Qed.

Lemma commit_events_commit (env : Env) (msg : str) (r : result unit)
                           (evs : list event) :
  commit_events env msg = (r, evs) ->
  exists rest,
    evs = GitCommit msg (git_commit env msg) :: rest /\
    existsb is_commit rest = false.
Proof.
  unfold commit_events. intros H.
  destruct (git_commit env msg) as [rc text| | |x];
    [destruct (rc =? 0)%Z;
     [destruct (markup_ok env (committed_notice msg))|]|..]; inversion H; subst; eexists; split;
    reflexivity.
Qed.

Lemma commit_events_status (env : Env) (msg : str) (r : result unit)
                           (evs : list event) :
  commit_events env msg = (r, evs) ->
  match git_commit env msg with
  | Exited rc _ =>
      if (rc =? 0)%Z && negb (markup_ok env (committed_notice msg))
      then r = Raise MarkupError
      else r = Return tt
  | NotFound => r = Raise FileNotFoundError
  | Interrupted => r = Raise KeyboardInterrupt
  | Crashed x => r = Raise (OSError x)
  end.
Proof.
  unfold commit_events. intros H.
  destruct (git_commit env msg) as [rc text| | |x];
    [destruct (rc =? 0)%Z;
     [destruct (markup_ok env (committed_notice msg))|]|..]; inversion H; subst; reflexivity.
Qed.

(** * Whole runs *)

(** ** Commit calls in a finished run *)

(** Puts the fact [H] that the run of [env] on [lines] is [finished] in the
    context, with the result and the trace of the run as variables. *)
Ltac by_finished env lines H :=
  pose proof (run_finished env lines) as H;
  let r := fresh "r" in
  let tr := fresh "tr" in
  let Er := fresh "Er" in
  let Etr := fresh "Etr" in
  remember (fst (run env lines)) as r eqn:Er;
  remember (trace (snd (run env lines))) as tr eqn:Etr;
  clear Er Etr.

Lemma no_commit_In (tr : list event) (msg : str) (r : proc_result) :
  existsb is_commit tr = false -> ~ In (GitCommit msg r) tr.
Proof.
  intros H Hin.
  assert (existsb is_commit tr = true) as Ht
      by (apply existsb_exists; exists (GitCommit msg r); auto).
  congruence.
Qed.

(** A finished run either issued no commit call, or exactly one, with a
    message that is not empty, after a clean trace and without any notice of
    giving up. *)
Lemma finished_commit (env : Env) (r : result unit) (tr : list event) :
  finished env r tr ->
  existsb is_commit tr = false \/
  exists tr0 msg rest,
    tr = tr0 ++ GitCommit msg (git_commit env msg) :: rest /\
    clean tr0 /\ msg <> [] /\
    existsb is_commit rest = false /\
    existsb is_abort tr = false.
Proof.
  intros H.
  destruct H as [e tr Hex Hne | tr ev Hc Hi Hnc
                | tr msg r evs Hc Hm Hce Hni | tr msg Hc Hm Hgi].
  - left. destruct Hex as [tr ev Hc Hi Hnc|tr s Hc Hs|tr Hc|tr s Hc Hs|e tr He Hc];
      try rewrite (existsb_clean_app _ _ _ commit_not_ordinary Hc);
      try rewrite (existsb_clean _ _ commit_not_ordinary Hc);
      try reflexivity.
    simpl. rewrite Hnc. reflexivity.
  - left. rewrite (existsb_clean_app _ _ _ commit_not_ordinary Hc).
    simpl. rewrite Hnc. reflexivity.
  - right. destruct (commit_events_commit _ _ _ _ Hce) as [rest [-> Hrest]].
    exists tr, msg, rest. repeat split; try assumption.
    rewrite (existsb_clean_app _ _ _ abort_not_ordinary Hc).
    eapply commit_events_no_abort, Hce.
  - right. exists tr, msg, [Printed interrupted_notice].
    rewrite Hgi. repeat split; try assumption.
    rewrite (existsb_clean_app _ _ _ abort_not_ordinary Hc). reflexivity.
Qed.

Lemma filter_none (f : event -> bool) (tr : list event) :
  existsb f tr = false -> filter f tr = [].
Proof.
  induction tr as [|e tr IH]; simpl; [reflexivity|].
  intros H. apply orb_false_iff in H. destruct H as [He Htr].
  rewrite He. auto.
Qed.

(** What [main] does when there is no diff. *)
Lemma main_without_diff (env : Env) (st st1 : State) (d : option str) :
  get_staged_diff env st = (Return d, st1) ->
  truthy d = false ->
  main env st = (Raise (SystemExit 1), with_events st1 [Printed no_staged_notice]).
Proof.
  intros Hd Ht. rewrite main_unfold. unfold try_catch. unfold bind at 1.
  rewrite Hd, Ht. reflexivity.
Qed.

Lemma exits_no_commit (e : exn) (tr : list event) :
  exits e tr -> existsb is_commit tr = false.
Proof.
  intros Hex.
  destruct Hex as [tr ev Hc Hi Hnc|tr s Hc Hs|tr Hc|tr s Hc Hs|e tr He Hc];
    try rewrite (existsb_clean_app _ _ _ commit_not_ordinary Hc);
    try rewrite (existsb_clean _ _ commit_not_ordinary Hc);
    try reflexivity.
  simpl. rewrite Hnc. reflexivity.
Qed.

(** ** After a failed generation *)

Lemma generate_fails (env : Env) (diff model : str) (tok : option str)
                     (st : State) :
  generation_fails (chat_completion env (api_calls st)) = true ->
  exists g evs,
    generate_commit_message env diff model tok st =
    (Return g, after_call env st tok model diff evs) /\
    truthy g = false /\
    view evs = [].
Proof.
  intros H. rewrite generate_commit_message_runs.
  destruct (chat_completion env (api_calls st)) as [c|e|e|e|];
    simpl in H; try discriminate; eexists; eexists;
    (split; [reflexivity | split; [|reflexivity]]);
    try reflexivity.
  simpl. apply negb_true_iff, H.
Qed.

(** [main] when there is a diff, the generation fails, and the user then
    types a blank line. *)
Lemma main_fallback_empty (env : Env) (st st1 : State) (d : option str)
                          (s : str) (rest : list console_in) :
  get_staged_diff env st = (Return d, st1) ->
  truthy d = true ->
  generation_fails (chat_completion env (api_calls st1)) = true ->
  stdin st1 = Line s :: rest ->
  strip s = [] ->
  exists tr0,
    main env st =
    (Raise (SystemExit 1),
     mkState rest (S (api_calls st1))
             (tr0 ++ [Printed generation_failed_notice;
                      Input manual_prompt (Some (Line s));
                      Printed empty_message_notice])).
Proof.
  intros Hd Ht Hgen Hin Hs. rewrite main_unfold. unfold try_catch.
  unfold bind at 1. rewrite Hd, Ht. cbn [negb].
  unfold bind at 1. unfold emit at 1.
  unfold bind at 1. unfold emit at 1.
  unfold bind at 1.
  match goal with
  | |- context [generate_commit_message env ?a ?b ?c ?st'] =>
      destruct (generate_fails env a b c st' Hgen) as [g [evs [Hg [Hgt _]]]];
      rewrite Hg
  end.
  unfold bind at 1. rewrite Hgt.
  unfold bind at 1. unfold emit at 1.
  unfold bind at 1. unfold after_call. cbn [stdin api_calls trace].
  rewrite Hin, prompt_manual_message_line.
  apply truthy_str_false in Hs. rewrite Hs.
  eexists. unfold raise. rewrite <- app_assoc. reflexivity.
Qed.

Lemma get_staged_diff_keeps_input (env : Env) (st : State) :
  stdin (snd (get_staged_diff env st)) = stdin st /\
  api_calls (snd (get_staged_diff env st)) = api_calls st.
Proof.
  rewrite get_staged_diff_runs.
  destruct (git_diff_staged env) as [rc text| | |x];
    [destruct (rc =? 0)%Z;
     [destruct (negb (truthy_str (strip (universal_newlines text))));
      [|destruct (MAX_DIFF_CHARS <? length (strip (universal_newlines text)))]|]|..];
    split; reflexivity.
Qed.

(** ** Runs with the same flow: a relational logic *)

Lemma view_app (a b : list event) : view (a ++ b) = view a ++ view b.
Proof. apply flat_map_app. Qed.

Lemma alike_more (st1 st2 : State) (evs1 evs2 : list event) :
  alike st1 st2 -> view evs1 = view evs2 ->
  alike (with_events st1 evs1) (with_events st2 evs2).
Proof.
  intros [H1 [H2 H3]] Hv. unfold alike, with_events. simpl.
  rewrite !view_app, H3, Hv. auto.
Qed.

Lemma rel_ret {A} (R : A -> A -> Prop) (a b : A) :
  R a b -> rel_M R (ret a) (ret b).
Proof. intros H st1 st2 Hal. split; [exact Hal | exact H]. Qed.

Lemma rel_raise {A} (R : A -> A -> Prop) (e : exn) :
  rel_M R (raise e) (raise e).
Proof. intros st1 st2 Hal. split; [exact Hal | reflexivity]. Qed.

Lemma rel_bind {A B} (R : A -> A -> Prop) (R' : B -> B -> Prop)
               (m1 m2 : M A) (k1 k2 : A -> M B) :
  rel_M R m1 m2 ->
  (forall a b, R a b -> rel_M R' (k1 a) (k2 b)) ->
  rel_M R' (bind m1 k1) (bind m2 k2).
Proof.
  intros Hm Hk st1 st2 Hal. unfold bind. specialize (Hm st1 st2 Hal).
  destruct (m1 st1) as [[a|e1|] s1], (m2 st2) as [[b|e2|] s2];
    destruct Hm as [Hal' Hr]; simpl in *; try contradiction.
  - apply Hk; assumption.
  - subst. split; [assumption | reflexivity].
  - split; [assumption | exact I].
Qed.

Lemma rel_try_catch {A} (R : A -> A -> Prop) (m1 m2 : M A) (h1 h2 : exn -> M A) :
  rel_M R m1 m2 ->
  (forall e, rel_M R (h1 e) (h2 e)) ->
  rel_M R (try_catch m1 h1) (try_catch m2 h2).
Proof.
  intros Hm Hh st1 st2 Hal. unfold try_catch. specialize (Hm st1 st2 Hal).
  destruct (m1 st1) as [[a|e1|] s1], (m2 st2) as [[b|e2|] s2];
    destruct Hm as [Hal' Hr]; simpl in *; try contradiction.
  - split; assumption.
  - subst. apply Hh. assumption.
  - split; [assumption | exact I].
Qed.

Lemma rel_emit (e : event) : rel_M eq (emit e) (emit e).
Proof.
  intros st1 st2 Hal. split; [|reflexivity].
  apply (alike_more st1 st2 [e] [e] Hal). reflexivity.
Qed.

Lemma rel_read_line (p : str) : rel_M eq (read_line p) (read_line p).
Proof.
  intros st1 st2 [H1 [H2 H3]]. unfold read_line. rewrite <- H1.
  destruct (stdin st1) as [|[s|] rest]; (split; [|reflexivity]);
    unfold alike; simpl; rewrite !view_app, H3; auto.
Qed.

Lemma rel_while_fuel {S A} (RS : S -> S -> Prop) (R : A -> A -> Prop)
                     (body1 body2 : S -> M (S + A)) :
  (forall s1 s2,
      RS s1 s2 ->
      rel_M (fun r1 r2 => match r1, r2 with
                          | inl a, inl b => RS a b
                          | inr a, inr b => R a b
                          | _, _ => False
                          end) (body1 s1) (body2 s2)) ->
  forall n s1 s2,
    RS s1 s2 -> rel_M R (while_fuel n body1 s1) (while_fuel n body2 s2).
Proof.
  intros Hbody. induction n as [|n IH]; intros s1 s2 Hs.
  - intros st1 st2 Hal. split; [assumption | exact I].
  - simpl. eapply rel_bind; [apply Hbody, Hs|].
    intros [a|a] [b|b] Hab; try contradiction.
    + apply IH, Hab.
    + apply rel_ret, Hab.
Qed.

Lemma rel_while_True {S A} (RS : S -> S -> Prop) (R : A -> A -> Prop)
                     (body1 body2 : S -> M (S + A)) (s1 s2 : S) :
  (forall s1 s2,
      RS s1 s2 ->
      rel_M (fun r1 r2 => match r1, r2 with
                          | inl a, inl b => RS a b
                          | inr a, inr b => R a b
                          | _, _ => False
                          end) (body1 s1) (body2 s2)) ->
  RS s1 s2 -> rel_M R (while_True body1 s1) (while_True body2 s2).
Proof.
  intros Hbody Hs st1 st2 Hal. unfold while_True.
  destruct Hal as [H1 H23]. rewrite <- H1.
  apply (rel_while_fuel RS R body1 body2 Hbody); [assumption|].
  split; assumption.
Qed.

Lemma rel_prompt_manual_message (env1 env2 : Env) :
  rel_M eq (prompt_manual_message env1) (prompt_manual_message env2).
Proof.
  unfold prompt_manual_message. rewrite !input_manual, !print_empty_message.
  apply (rel_while_True (fun _ _ => True)); [|exact I].
  intros _ _ _. eapply rel_bind; [apply rel_read_line|].
  intros line ? <-. cbv zeta.
  destruct (truthy_str (strip line)).
  - apply rel_ret. reflexivity.
  - eapply rel_bind; [apply rel_emit|]. intros _ _ _. apply rel_raise.
Qed.

Section SameFlow.

Variables env1 env2 : Env.
Hypothesis Hagree : agree env1 env2.

Lemma rel_get_staged_diff : rel_M eq (get_staged_diff env1) (get_staged_diff env2).
Proof.
  intros st1 st2 Hal. rewrite !get_staged_diff_runs.
  rewrite <- (agree_diff _ _ Hagree).
  destruct (git_diff_staged env1) as [rc text| | |x];
    [destruct (rc =? 0)%Z;
     [destruct (negb (truthy_str (strip (universal_newlines text))));
      [|destruct (MAX_DIFF_CHARS <? length (strip (universal_newlines text)))]|]|..];
    (split; [apply alike_more; [assumption | reflexivity] | reflexivity]).
Qed.

Lemma rel_generate_commit_message (diff model : str) (tok : option str) :
  rel_M same_candidate
        (generate_commit_message env1 diff model tok)
        (generate_commit_message env2 diff model tok).
Proof.
  intros st1 st2 [H1 [H2 H3]]. rewrite !generate_commit_message_runs.
  unfold after_call, related, alike. rewrite <- H1, <- H2.
  destruct (agree_api _ _ Hagree (api_calls st1)) as [Heq|[Hf1 Hf2]].
  - rewrite <- Heq.
    destruct (chat_completion env1 (api_calls st1)); simpl;
      rewrite !view_app, H3; repeat split; reflexivity.
  - destruct (chat_completion env1 (api_calls st1)) as [c1|e1|e1|e1|];
      destruct (chat_completion env2 (api_calls st1)) as [c2|e2|e2|e2|];
      try discriminate Hf1; try discriminate Hf2;
      cbn [fst snd stdin api_calls trace];
      rewrite !view_app, H3; cbn [view flat_map see generation_fails app];
      simpl in Hf1, Hf2;
      try rewrite Hf1; try rewrite Hf2;
      apply negb_true_iff in Hf1 || idtac;
      apply negb_true_iff in Hf2 || idtac;
      unfold same_candidate; cbn [truthy];
      try rewrite Hf1; try rewrite Hf2;
      repeat split; try reflexivity; try discriminate.
Qed.

Lemma rel_commit_with_message (msg : str) :
  rel_M eq (commit_with_message env1 msg) (commit_with_message env2 msg).
Proof.
  intros st1 st2 Hal. rewrite !commit_with_message_runs.
  assert (commit_events env1 msg = commit_events env2 msg) as <-.
  { unfold commit_events. rewrite (agree_commit _ _ Hagree).
    rewrite (markup_ok_agree env1 env2 _ (agree_styles _ _ Hagree)
                             (agree_handlers _ _ Hagree)).
    reflexivity. }
  split.
  - apply (alike_more st1 st2 _ _ Hal). reflexivity.
  - simpl. destruct (fst (commit_events env1 msg)) as [[]| |]; reflexivity.
Qed.

Lemma rel_show_suggested_message (msg : str) :
  rel_M eq (show_suggested_message env1 msg) (show_suggested_message env2 msg).
Proof.
  intros st1 st2 Hal. rewrite !show_suggested_message_runs.
  rewrite (markup_ok_agree env1 env2 _ (agree_styles _ _ Hagree)
                           (agree_handlers _ _ Hagree)).
  destruct (markup_ok env2 (lit "[bold green]" ++ msg ++ lit "[/bold green]")).
  - split; [|reflexivity]. apply (alike_more st1 st2 _ _ Hal). reflexivity.
  - split; [exact Hal | reflexivity].
Qed.

Lemma rel_review_round (diff model : str) (tok : option str) (msg : str) :
  rel_M (fun r1 r2 : str + str => r1 = r2)
        (review_round env1 diff model tok msg)
        (review_round env2 diff model tok msg).
Proof.
  unfold review_round.
  rewrite !input_review, !print_rejected, !print_invalid_choice,
    !status_regenerating.
  eapply rel_bind; [apply rel_read_line|].
  intros line ? <-. cbv zeta.
  destruct (in_list (lower (strip line)) [lit "y"; lit "yes"; lit ""]);
    [apply rel_ret; reflexivity|].
  destruct (in_list (lower (strip line)) [lit "n"; lit "no"]).
  { eapply rel_bind; [apply rel_emit|]. intros _ _ _. apply rel_raise. }
  destruct (in_list (lower (strip line)) [lit "e"; lit "edit"]).
  { eapply rel_bind; [apply rel_prompt_manual_message|].
    intros m ? <-. apply rel_ret. reflexivity. }
  destruct (in_list (lower (strip line)) [lit "r"; lit "regen"; lit "regenerate"]).
  { eapply rel_bind; [apply rel_emit|]. intros _ _ _.
    eapply rel_bind; [apply rel_generate_commit_message|].
    intros g1 g2 [Ht Hg]. rewrite <- Ht.
    destruct (truthy g1).
    - rewrite <- (Hg eq_refl).
      eapply rel_bind; [apply rel_show_suggested_message|]. intros _ _ _.
      apply rel_ret. reflexivity.
    - eapply rel_bind; [apply rel_prompt_manual_message|].
      intros m ? <-. apply rel_ret. reflexivity. }
  eapply rel_bind; [apply rel_emit|]. intros _ _ _. apply rel_ret. reflexivity.
Qed.

Lemma rel_prompt_commit_message (msg diff model : str) (tok : option str) :
  rel_M eq (prompt_commit_message env1 msg diff model tok)
           (prompt_commit_message env2 msg diff model tok).
Proof.
  unfold prompt_commit_message.
  apply (rel_while_True eq); [|reflexivity].
  intros s ? <- st1 st2 Hal.
  destruct (rel_review_round diff model tok s st1 st2 Hal) as [Hal' Hr].
  split; [assumption|].
  destruct (fst (review_round env1 diff model tok s st1)) as [[a|a]|e|],
           (fst (review_round env2 diff model tok s st2)) as [[b|b]|e'|];
    simpl in *; try contradiction; try discriminate;
    try (inversion Hr; subst; reflexivity); auto.
Qed.

Lemma rel_main : rel_M eq (main env1) (main env2).
Proof.
  rewrite !main_unfold. unfold args_model.
  rewrite <- (agree_token _ _ Hagree), <- (agree_model _ _ Hagree).
  apply rel_try_catch.
  - eapply rel_bind; [apply rel_get_staged_diff|].
    intros d ? <-. destruct (negb (truthy d)).
    { eapply rel_bind; [apply rel_emit|]. intros _ _ _. apply rel_raise. }
    eapply rel_bind; [apply rel_emit|]. intros _ _ _.
    eapply rel_bind; [apply rel_emit|]. intros _ _ _.
    eapply rel_bind; [apply rel_generate_commit_message|].
    intros g1 g2 [Ht Hg]. rewrite <- Ht.
    eapply rel_bind with (R := eq).
    + destruct (truthy g1).
      * rewrite <- (Hg eq_refl).
        eapply rel_bind; [apply rel_show_suggested_message|]. intros _ _ _.
        apply rel_prompt_commit_message.
      * eapply rel_bind; [apply rel_emit|]. intros _ _ _.
        eapply rel_bind; [apply rel_prompt_manual_message|].
        intros m ? <-. destruct (negb (truthy_str m)).
        -- eapply rel_bind; [apply rel_emit|]. intros _ _ _. apply rel_raise.
        -- apply rel_ret. reflexivity.
    + intros m ? <-. apply rel_commit_with_message.
  - intros e. rewrite !main_handler_runs. destruct e; try apply rel_raise.
    eapply rel_bind; [apply rel_emit|]. intros _ _ _. apply rel_raise.
Qed.

End SameFlow.

(** A regeneration that fails goes on with [prompt_manual_message], no
    panel having been printed. *)
Lemma regeneration_falls_through
      (env : Env) (msg diff model : str) (tok : option str)
      (s : str) (rest : list console_in) (n : nat) (tr : list event) :
  classify (lower (strip s)) = Regenerate ->
  generation_fails (chat_completion env n) = true ->
  exists logs,
    view logs = [] /\
    prompt_commit_message env msg diff model tok (mkState (Line s :: rest) n tr) =
    (m <- prompt_manual_message env ;; prompt_commit_message env m diff model tok)
      (mkState rest (S n)
         (tr ++ [Input review_prompt (Some (Line s));
                 Status (lit "[bold magenta]Regenerating commit message...[/bold magenta]");
                 ApiCall (if truthy tok then tok else None) model
                         (prompt_template diff) (chat_completion env n)]
             ++ logs)).
Proof.
  intros Hs Hgen.
  pose (st1 := mkState rest n
                 ((tr ++ [Input review_prompt (Some (Line s))]) ++
                  [Status (lit "[bold magenta]Regenerating commit message...[/bold magenta]")])).
  destruct (generate_fails env diff model tok st1 Hgen) as [g [logs [Hg [Hgt Hv]]]].
  exists logs. split; [exact Hv|].
  rewrite prompt_commit_message_unfold. unfold bind at 1.
  rewrite review_round_line, Hs.
  unfold bind at 1. unfold emit at 1.
  cbn [stdin api_calls trace]. unfold bind at 1. fold st1. rewrite Hg, Hgt.
  unfold after_call, st1. cbn [stdin api_calls trace].
  repeat rewrite <- app_assoc. cbn [app].
  unfold bind, ret.
  match goal with
  | |- context [prompt_manual_message env ?st'] =>
      destruct (prompt_manual_message env st') as [[m|e|] st2]
  end; reflexivity.
Qed.

(** An initial generation that fails goes on with [prompt_manual_message],
    no suggestion panel having been printed. *)
Lemma generation_falls_through
      (env : Env) (st st1 : State) (d : option str) :
  get_staged_diff env st = (Return d, st1) ->
  truthy d = true ->
  generation_fails (chat_completion env (api_calls st1)) = true ->
  exists logs,
    view logs = [] /\
    main env st =
    try_catch
      (msg <- (msg <- prompt_manual_message env ;;
               if negb (truthy_str msg) then
                 console_print env empty_message_notice ;; sys_exit 1
               else ret msg) ;;
       commit_with_message env msg)
      (main_handler env)
      (mkState (stdin st1) (S (api_calls st1))
         (trace st1 ++
          [Panel (lit "[yellow]Staged Diff[/yellow]") (unwrap d);
           Status (lit "[bold green]Generating commit message...[/bold green]");
           ApiCall (if truthy (HF_TOKEN env) then HF_TOKEN env else None)
                   (args_model env) (prompt_template (unwrap d))
                   (chat_completion env (api_calls st1))]
          ++ logs ++ [Printed generation_failed_notice])).
Proof.
  intros Hd Ht Hgen.
  pose (st2 := mkState (stdin st1) (api_calls st1)
                 ((trace st1 ++ [Panel (lit "[yellow]Staged Diff[/yellow]") (unwrap d)])
                  ++ [Status (lit "[bold green]Generating commit message...[/bold green]")])).
  destruct (generate_fails env (unwrap d) (args_model env) (HF_TOKEN env) st2 Hgen)
    as [g [logs [Hg [Hgt Hv]]]].
  exists logs. split; [exact Hv|].
  rewrite main_unfold, print_empty_message.
  unfold try_catch. unfold bind at 1. rewrite Hd, Ht. cbn [negb].
  unfold bind at 1. unfold emit at 1.
  unfold bind at 1. unfold emit at 1.
  cbn [stdin api_calls trace]. unfold bind at 1. fold st2. rewrite Hg.
  unfold bind at 1. rewrite Hgt.
  unfold bind at 1. unfold emit at 1.
  unfold after_call, st2. cbn [stdin api_calls trace].
  repeat rewrite <- app_assoc. cbn [app].
  reflexivity.
Qed.

Lemma commit_events_no_panel (env : Env) (msg : str) (r : result unit)
                             (evs : list event) :
  commit_events env msg = (r, evs) ->
  existsb is_blank_suggestion evs = false.
Proof.
  unfold commit_events. intros H.
  destruct (git_commit env msg) as [rc text| | |x];
    [destruct (rc =? 0)%Z;
     [destruct (markup_ok env (committed_notice msg))|]|..]; inversion H; subst; reflexivity.
Qed.

Lemma interrupt_not_panel (e : event) :
  is_interrupt e = true -> is_blank_suggestion e = false.
Proof. destruct e; try discriminate; reflexivity. Qed.


(** * The properties of the specification *)

(** ** C1: exit statuses *)

(** C1: the exit status does not depend on how [git commit] exits.  In a
    run whose [git commit] subprocess exits with a non-zero status, [main]
    returns normally, so the process ends with status 0, not 1; and what is
    logged and printed as the error is the text [None], because nothing of
    the subprocess is captured. *)
Theorem failed_commit_exits_zero (env : Env) (lines : list console_in)
                                 (msg : str) (rc : Z) (text : str) :
  In (GitCommit msg (Exited rc text)) (trace (snd (run env lines))) ->
  rc <> 0%Z ->
  exit_status (fst (run env lines)) = Some 0%Z /\
  exists tr,
    trace (snd (run env lines)) =
    tr ++ [GitCommit msg (Exited rc text);
           Logged LvlError (lit "Git commit failed: None");
           Printed (nl ++ lit "[red]Git commit error:[/red]" ++ nl ++ lit "None")].
Proof.
  by_finished env lines H. intros Hin Hrc.
  destruct H as [e tr Hex Hne | tr ev Hc Hi Hnc
                | tr m r evs Hc Hm Hce Hni | tr m Hc Hm Hgi].
  - exfalso. eapply no_commit_In; [|exact Hin].
    eapply exits_no_commit, Hex.
  - exfalso. eapply no_commit_In; [|exact Hin].
    rewrite (existsb_clean_app _ _ _ commit_not_ordinary Hc).
    simpl. rewrite Hnc. reflexivity.
  - apply in_app_or in Hin. destruct Hin as [Hin|Hin].
    { exfalso. eapply no_commit_In; [|exact Hin].
      apply existsb_clean; [apply commit_not_ordinary | assumption]. }
    unfold commit_events in Hce.
    destruct (git_commit env m) as [rc' text'| | |x] eqn:Eg;
      [destruct (rc' =? 0)%Z eqn:Erc;
       [destruct (markup_ok env (committed_notice m))|]|..];
      inversion Hce; subst; clear Hce;
      simpl in Hin;
      repeat match goal with
             | Hor : _ \/ _ |- _ => destruct Hor as [Hor|Hor]
             | Hf : False |- _ => contradiction
             | Heq : _ = GitCommit _ _ |- _ => inversion Heq; subst; clear Heq
             end;
      try discriminate.
    + apply Z.eqb_eq in Erc. contradiction.
    + apply Z.eqb_eq in Erc. contradiction.
    + split; [reflexivity|]. exists tr. reflexivity.
  - exfalso. apply in_app_or in Hin. destruct Hin as [Hin|Hin].
    + eapply no_commit_In; [|exact Hin].
      apply existsb_clean; [apply commit_not_ordinary | assumption].
    + simpl in Hin. destruct Hin as [Hin|[Hin|[]]]; discriminate.
Qed.

(** [failed_commit_exits_zero] on a run in which the user accepts the
    suggestion and [git commit] exits with status 1. *)
Lemma failed_commit_exits_zero_witness :
  exit_status (fst (run env_commit_fails [Line (lit "y")])) = Some 0%Z /\
  exists tr,
    trace (snd (run env_commit_fails [Line (lit "y")])) =
    tr ++ [GitCommit (lit "fix: x")
                     (Exited 1 (lit "error: gpg failed to sign the data"));
           Logged LvlError (lit "Git commit failed: None");
           Printed (nl ++ lit "[red]Git commit error:[/red]" ++ nl ++ lit "None")].
Proof.
  apply (failed_commit_exits_zero env_commit_fails [Line (lit "y")]).
  - vm_compute. repeat first [left; reflexivity | right].
  - discriminate.
Defined.

(** The exit status of one run of each kind. *)
Example exit_status_by_case :
  (* the suggestion is accepted and committed *)
  exit_status (fst (run env_ok [Line (lit "y")])) = Some 0%Z /\
  (* the suggestion is rejected *)
  exit_status (fst (run env_ok [Line (lit "n")])) = Some 0%Z /\
  (* Ctrl-C at the review prompt *)
  exit_status (fst (run env_ok [CtrlC])) = Some 0%Z /\
  (* nothing is staged *)
  exit_status (fst (run env_nothing_staged [Line (lit "y")])) = Some 1%Z /\
  (* generation fails and the manual message is empty *)
  exit_status (fst (run env_offline [Line []])) = Some 1%Z /\
  (* the input ends at the review prompt *)
  exit_status (fst (run env_ok [])) = Some 1%Z /\
  (* git commit fails *)
  exit_status (fst (run env_commit_fails [Line (lit "y")])) = Some 0%Z.
Proof. vm_compute. repeat split. Qed.

(** ** C2: editing the message *)

(** C2, as stated, at a concrete input: the user chooses Edit, types a
    message, and then answers [n] at the review prompt, which has come back.
    The run ends with the cancellation and without a commit call: the typed
    message was not final and the flow did not go on to the commit. *)
Lemma edit_returns_to_review :
  fst (run env_ok [Line (lit "e"); Line (lit "docs: by hand"); Line (lit "n")]) =
  Raise (SystemExit 0) /\
  existsb is_commit
    (trace (snd (run env_ok
                   [Line (lit "e"); Line (lit "docs: by hand"); Line (lit "n")])))
  = false /\
  exists tr,
    trace (snd (run env_ok
                  [Line (lit "e"); Line (lit "docs: by hand"); Line (lit "n")])) =
    tr ++ [Input review_prompt (Some (Line (lit "e")));
           Input manual_prompt (Some (Line (lit "docs: by hand")));
           Input review_prompt (Some (Line (lit "n")));
           Printed rejected_notice].
Proof.
  split; [vm_compute; reflexivity|]. split; [vm_compute; reflexivity|].
  exists (firstn 5 (trace (snd (run env_ok
            [Line (lit "e"); Line (lit "docs: by hand"); Line (lit "n")])))).
  vm_compute. reflexivity.
Qed.

(** C2, amended: at the review prompt, choosing Edit and typing a message
    that is not blank makes the typed message, without its surrounding white
    space, the current message, and the review prompt is presented again; an
    acceptance at that prompt returns the typed message for the commit. *)
Theorem edit_sets_current_message
        (env : Env) (msg diff model : str) (tok : option str)
        (e m : str) (rest : list console_in) (n : nat) (tr : list event) :
  classify (lower (strip e)) = Edit ->
  strip m <> [] ->
  prompt_commit_message env msg diff model tok
    (mkState (Line e :: Line m :: rest) n tr) =
  prompt_commit_message env (strip m) diff model tok
    (mkState rest n
       (tr ++ [Input review_prompt (Some (Line e));
               Input manual_prompt (Some (Line m))])) /\
  (forall a rest',
      rest = Line a :: rest' ->
      classify (lower (strip a)) = Accept ->
      prompt_commit_message env msg diff model tok
        (mkState (Line e :: Line m :: rest) n tr) =
      (Return (strip m),
       mkState rest' n
         (tr ++ [Input review_prompt (Some (Line e));
                 Input manual_prompt (Some (Line m));
                 Input review_prompt (Some (Line a))]))).
Proof.
  intros He Hm.
  assert (Hfirst :
    prompt_commit_message env msg diff model tok
      (mkState (Line e :: Line m :: rest) n tr) =
    prompt_commit_message env (strip m) diff model tok
      (mkState rest n
         (tr ++ [Input review_prompt (Some (Line e));
                 Input manual_prompt (Some (Line m))]))).
  { rewrite prompt_commit_message_unfold. unfold bind at 1.
    rewrite review_round_line, He. unfold bind at 1.
    rewrite prompt_manual_message_line.
    apply truthy_str_true in Hm. rewrite Hm. unfold ret.
    rewrite <- app_assoc. reflexivity. }
  split; [exact Hfirst|].
  intros a rest' -> Ha. rewrite Hfirst.
  rewrite prompt_commit_message_unfold. unfold bind.
  rewrite review_round_line, Ha. rewrite <- app_assoc. reflexivity.
Qed.

(** [edit_sets_current_message] on the answers [E], a message, and the
    empty line. *)
Lemma edit_sets_current_message_witness :
  prompt_commit_message env_ok (lit "fix: x") (lit "d") (lit "m") None
    (mkState [Line (lit "E"); Line (lit " docs: by hand "); Line []] 1 []) =
  prompt_commit_message env_ok (strip (lit " docs: by hand ")) (lit "d") (lit "m") None
    (mkState [Line []] 1
       ([] ++ [Input review_prompt (Some (Line (lit "E")));
               Input manual_prompt (Some (Line (lit " docs: by hand ")))])) /\
  (forall a rest',
      [Line []] = Line a :: rest' ->
      classify (lower (strip a)) = Accept ->
      prompt_commit_message env_ok (lit "fix: x") (lit "d") (lit "m") None
        (mkState [Line (lit "E"); Line (lit " docs: by hand "); Line []] 1 []) =
      (Return (strip (lit " docs: by hand ")),
       mkState rest' 1
         ([] ++ [Input review_prompt (Some (Line (lit "E")));
                 Input manual_prompt (Some (Line (lit " docs: by hand ")));
                 Input review_prompt (Some (Line a))]))).
Proof.
  apply (edit_sets_current_message env_ok (lit "fix: x") (lit "d") (lit "m") None
           (lit "E") (lit " docs: by hand ") [Line []] 1 []).
  - vm_compute. reflexivity.
  - vm_compute. discriminate.
Defined.

(** ** C3: the empty manual message *)

(** C3, as stated, at a concrete input: the user chooses Edit and then
    enters an empty line.  The run ends at once with status 1; the line
    typed after it is never read, so there is no second prompt. *)
Lemma empty_edit_ends_the_run :
  exit_status
    (fst (run env_ok [Line (lit "e"); Line []; Line (lit "feat: later")])) =
  Some 1%Z /\
  stdin (snd (run env_ok [Line (lit "e"); Line []; Line (lit "feat: later")])) =
  [Line (lit "feat: later")] /\
  length
    (filter
       (fun ev => match ev with
                  | Input p _ => str_eqb p manual_prompt
                  | _ => false
                  end)
       (trace (snd (run env_ok
                      [Line (lit "e"); Line []; Line (lit "feat: later")])))) = 1.
Proof. vm_compute. repeat split. Qed.

(** C3, amended: an empty (or blank) manual message is handled the same way
    at both places that ask for one.  [prompt_manual_message] prints the
    notice and raises [SystemExit(1)] after one prompt; so does the review
    loop when manual entry is reached by Edit, and so does [main] when it is
    reached after a failed generation.  Any run that printed the notice ends
    there with exit status 1 and without a commit call. *)
Theorem empty_manual_message_exits (env : Env) :
  (forall s rest n tr,
      strip s = [] ->
      prompt_manual_message env (mkState (Line s :: rest) n tr) =
      (Raise (SystemExit 1),
       mkState rest n (tr ++ [Input manual_prompt (Some (Line s));
                              Printed empty_message_notice]))) /\
  (forall msg diff model tok e s rest n tr,
      classify (lower (strip e)) = Edit ->
      strip s = [] ->
      prompt_commit_message env msg diff model tok
        (mkState (Line e :: Line s :: rest) n tr) =
      (Raise (SystemExit 1),
       mkState rest n (tr ++ [Input review_prompt (Some (Line e));
                              Input manual_prompt (Some (Line s));
                              Printed empty_message_notice]))) /\
  (forall text s rest,
      git_diff_staged env = Exited 0 text ->
      strip text <> [] ->
      generation_fails (chat_completion env 0) = true ->
      strip s = [] ->
      exists tr0,
        run env (Line s :: rest) =
        (Raise (SystemExit 1),
         mkState rest 1
                 (tr0 ++ [Printed generation_failed_notice;
                          Input manual_prompt (Some (Line s));
                          Printed empty_message_notice]))) /\
  (forall lines,
      existsb is_empty_notice (trace (snd (run env lines))) = true ->
      exit_status (fst (run env lines)) = Some 1%Z /\
      existsb is_commit (trace (snd (run env lines))) = false /\
      exists tr0 s,
        strip s = [] /\
        trace (snd (run env lines)) =
        tr0 ++ [Input manual_prompt (Some (Line s));
                Printed empty_message_notice]).
Proof.
  split; [|split; [|split]].
  - intros s rest n tr Hs. rewrite prompt_manual_message_line.
    apply truthy_str_false in Hs. rewrite Hs. reflexivity.
  - intros msg diff model tok e s rest n tr He Hs.
    rewrite prompt_commit_message_unfold. unfold bind at 1.
    rewrite review_round_line, He. unfold bind at 1.
    rewrite prompt_manual_message_line.
    apply truthy_str_false in Hs. rewrite Hs.
    rewrite <- app_assoc. reflexivity.
  - intros text s rest Hgit Hne Hgen Hs. unfold run.
    destruct (get_staged_diff env (init (Line s :: rest))) as [r st1] eqn:Hd.
    pose proof (get_staged_diff_keeps_input env (init (Line s :: rest))) as [Hin Hn].
    rewrite Hd in Hin, Hn. simpl in Hin, Hn.
    assert (exists d, r = Return d /\ truthy d = true) as [d [-> Ht]].
    { rewrite get_staged_diff_runs, Hgit in Hd. cbn [Z.eqb] in Hd.
      rewrite <- strip_universal_newlines_nil in Hne.
      apply truthy_str_true in Hne. rewrite Hne in Hd. cbn [negb] in Hd.
      destruct (MAX_DIFF_CHARS <? length (strip (universal_newlines text)));
        inversion Hd; eexists; split; try reflexivity.
      - simpl. destruct (strip (universal_newlines text));
          [discriminate | reflexivity].
      - exact Hne. }
    rewrite <- Hn. apply (main_fallback_empty env _ st1 d); try assumption.
    rewrite Hn. exact Hgen.
  - intros lines. by_finished env lines H. intros Hem.
    destruct H as [e tr' Hex Hne | tr' ev Hc Hi Hnc
                  | tr' m r evs Hc Hm Hce Hni | tr' m Hc Hm Hgi].
    + pose proof (exits_no_commit _ _ Hex) as Hnoc.
      destruct Hex as [tr' ev Hc Hi Hnc|tr' s Hc Hs|tr' Hc|tr' s Hc Hs|e tr' He Hc];
        try (exfalso;
             try rewrite (existsb_clean_app _ _ _ empty_notice_not_ordinary Hc) in Hem;
             try rewrite (existsb_clean _ _ empty_notice_not_ordinary Hc) in Hem;
             try discriminate Hem; congruence).
      split; [reflexivity|]. split; [assumption|].
      exists tr', s. split; [assumption | reflexivity].
    + exfalso.
      rewrite (existsb_clean_app _ _ _ empty_notice_not_ordinary Hc) in Hem.
      simpl in Hem.
      rewrite (interrupt_not_printed _ _ empty_notice_printed Hi) in Hem.
      discriminate.
    + exfalso.
      rewrite (existsb_clean_app _ _ _ empty_notice_not_ordinary Hc) in Hem.
      assert (existsb is_abort evs = true) as Hab.
      { apply existsb_exists. apply existsb_exists in Hem.
        destruct Hem as [x [Hx Hr]]. exists x. split; [assumption|].
        unfold is_abort. rewrite Hr. destruct (is_no_staged x); reflexivity. }
      rewrite (commit_events_no_abort _ _ _ _ Hce) in Hab. discriminate.
    + exfalso.
      rewrite (existsb_clean_app _ _ _ empty_notice_not_ordinary Hc) in Hem.
      discriminate.
Qed.

(** ** C4: truncation of the diff *)

(** C4, as stated, at a concrete input: git prints a diff that ends in a
    newline and is shorter than the threshold; what [get_staged_diff] hands
    on is not that text but the text without the newline. *)
Lemma diff_is_stripped_before_use :
  git_diff_staged env_ok = Exited 0 (lit "diff --git a/x b/x" ++ nl) /\
  length (lit "diff --git a/x b/x" ++ nl) <= MAX_DIFF_CHARS /\
  fst (get_staged_diff env_ok (init [])) = Return (Some (lit "diff --git a/x b/x")) /\
  lit "diff --git a/x b/x" <> lit "diff --git a/x b/x" ++ nl.
Proof.
  split; [reflexivity|]. split; [vm_compute; lia|].
  split; [vm_compute; reflexivity|]. vm_compute. discriminate.
Qed.

(** The same on a diff of a file with Windows line ends: what is handed on
    has neither the carriage returns nor the last line end that git
    wrote. *)
Example crlf_diff_is_translated :
  git_diff_staged env_crlf = Exited 0 (lit "+a" ++ [13; 10]%N ++ lit "+b" ++ [13; 10]%N) /\
  fst (get_staged_diff env_crlf (init [])) = Return (Some (lit "+a" ++ nl ++ lit "+b")).
Proof. split; vm_compute; reflexivity. Qed.

(** C4, amended: for every output of a successful [git diff --staged] that
    is not blank, the diff handed on is computed from the output as text
    mode delivers it (every [\r\n] and every other [\r] turned into [\n])
    with the surrounding white space removed: when that text is longer than
    5000 characters, its first 5000 characters followed by the truncation
    marker; otherwise that text itself, unmarked.  That text is the
    delivered output between two blank strings, begins and ends with a
    character that is not white space, and holds no carriage return; an
    output without carriage returns is delivered as it is. *)
Theorem staged_diff_truncation (env : Env) (st : State) (text : str) :
  git_diff_staged env = Exited 0 text ->
  ~ blank text ->
  (MAX_DIFF_CHARS < length (strip (universal_newlines text)) ->
   fst (get_staged_diff env st) =
   Return (Some (firstn MAX_DIFF_CHARS (strip (universal_newlines text))
                   ++ truncation_marker))) /\
  (length (strip (universal_newlines text)) <= MAX_DIFF_CHARS ->
   fst (get_staged_diff env st) =
   Return (Some (strip (universal_newlines text)))) /\
  trimmed_of (strip (universal_newlines text)) (universal_newlines text) /\
  ~ In 13%N (strip (universal_newlines text)) /\
  (~ In 13%N text -> universal_newlines text = text) /\
  MAX_DIFF_CHARS = 5000 /\
  truncation_marker = nl ++ lit "... [truncated]".
Proof.
  intros Hgit Hne. rewrite get_staged_diff_runs, Hgit.
  cbn [Z.eqb].
  assert (truthy_str (strip (universal_newlines text)) = true) as Ht.
  { apply truthy_str_true. rewrite strip_universal_newlines_nil, strip_nil_iff.
    exact Hne. }
  rewrite Ht. cbn [negb].
  split; [|split; [|split; [|split; [|split; [|split]]]]].
  - intros Hlen. apply Nat.ltb_lt in Hlen. rewrite Hlen. reflexivity.
  - intros Hlen. apply Nat.ltb_ge in Hlen. rewrite Hlen. reflexivity.
  - apply strip_trimmed_of.
  - intros H. apply strip_incl in H.
    exact (translate_newlines_no_cr _ _ H).
  - apply translate_newlines_id.
  - reflexivity.
  - reflexivity.
Qed.

(** [staged_diff_truncation] on a diff of 5001 characters. *)
Lemma staged_diff_truncation_witness :
  (MAX_DIFF_CHARS < length (strip (universal_newlines long_text)) ->
   fst (get_staged_diff env_long (init [])) =
   Return (Some (firstn MAX_DIFF_CHARS (strip (universal_newlines long_text))
                   ++ truncation_marker))) /\
  (length (strip (universal_newlines long_text)) <= MAX_DIFF_CHARS ->
   fst (get_staged_diff env_long (init [])) =
   Return (Some (strip (universal_newlines long_text)))) /\
  trimmed_of (strip (universal_newlines long_text)) (universal_newlines long_text) /\
  ~ In 13%N (strip (universal_newlines long_text)) /\
  (~ In 13%N long_text -> universal_newlines long_text = long_text) /\
  MAX_DIFF_CHARS = 5000 /\
  truncation_marker = nl ++ lit "... [truncated]".
Proof.
  apply (staged_diff_truncation env_long (init []) long_text).
  - reflexivity.
  - unfold blank. vm_compute. discriminate.
Defined.

Example long_diff_is_cut :
  fst (get_staged_diff env_long (init [])) =
  Return (Some (repeat 97%N MAX_DIFF_CHARS ++ nl ++ lit "... [truncated]")).
Proof. vm_compute. reflexivity. Qed.

(** ** C5: the commit step *)

(** C5: in every run, a commit call carries a message that is not empty,
    and at most one commit call is issued.  No commit call is issued in a
    run that printed one of the notices of giving up (nothing staged, empty
    manual message, commit rejected), nor in a run whose diff is absent. *)
Theorem commit_needs_a_message (env : Env) (lines : list console_in) :
  (forall msg r,
      In (GitCommit msg r) (trace (snd (run env lines))) -> msg <> []) /\
  length (filter is_commit (trace (snd (run env lines)))) <= 1 /\
  (existsb is_abort (trace (snd (run env lines))) = true ->
   existsb is_commit (trace (snd (run env lines))) = false) /\
  (forall d st1,
      get_staged_diff env (init lines) = (Return d, st1) ->
      truthy d = false ->
      existsb is_commit (trace (snd (run env lines))) = false).
Proof.
  split; [|split; [|split]].
  - by_finished env lines H. intros m p Hin.
    destruct (finished_commit _ _ _ H) as [Hno|[tr0 [msg [rest [-> [Hc [Hm [Hr _]]]]]]]].
    + exfalso. eapply no_commit_In; eassumption.
    + apply in_app_or in Hin. destruct Hin as [Hin|[Hin|Hin]].
      * exfalso. eapply no_commit_In; [|exact Hin].
        apply existsb_clean; [apply commit_not_ordinary | assumption].
      * inversion Hin; subst. assumption.
      * exfalso. eapply no_commit_In; eassumption.
  - by_finished env lines H.
    destruct (finished_commit _ _ _ H) as [Hno|[tr0 [msg [rest [-> [Hc [Hm [Hr _]]]]]]]].
    + rewrite (filter_none _ _ Hno). simpl. lia.
    + rewrite filter_app. simpl.
      rewrite (filter_none _ _ Hr).
      rewrite (filter_none _ tr0
                 (existsb_clean _ _ commit_not_ordinary Hc)).
      simpl. lia.
  - by_finished env lines H. intros Hab.
    destruct (finished_commit _ _ _ H) as [Hno|[tr0 [msg [rest [_ [_ [_ [_ Hn]]]]]]]].
    + assumption.
    + congruence.
  - intros d st1 Hd Ht. unfold run.
    rewrite (main_without_diff _ _ _ _ Hd Ht). simpl.
    assert (Hc : clean (trace st1)).
    { pose proof (precommit_get_staged_diff env (init lines)) as Hp.
      rewrite Hd in Hp. apply Hp. reflexivity. }
    rewrite (existsb_clean_app _ _ _ commit_not_ordinary Hc). reflexivity.
Qed.

(** ** C6: Ctrl-C *)



(** Ctrl-C at each kind of blocking call: the run ends with status 0, and
    only the interrupted [git commit] itself appears as a commit call. *)
Example interrupt_at_each_blocking_call :
  exit_status (fst (run env_diff_interrupted [Line (lit "y")])) = Some 0%Z /\
  exit_status (fst (run env_api_interrupted [Line (lit "y")])) = Some 0%Z /\
  exit_status (fst (run env_ok [Line (lit "r"); CtrlC])) = Some 0%Z /\
  exit_status (fst (run env_commit_interrupted [Line (lit "y")])) = Some 0%Z /\
  existsb is_commit (trace (snd (run env_api_interrupted [Line (lit "y")]))) = false /\
  filter is_commit (trace (snd (run env_commit_interrupted [Line (lit "y")]))) =
  [GitCommit (lit "fix: x") Interrupted].
Proof. vm_compute. repeat split. Qed.

(** ** C7: when [get_staged_diff] returns nothing *)

(** C7: [get_staged_diff] returns [None], raising nothing, in exactly three
    situations: the output of git is empty (once [strip()] has removed the
    surrounding white space, as the code tests it; the literally empty output
    is the second conjunct), git exits with a non-zero status, which is
    logged with the captured output, or git is not found, which is logged
    with a message of its own. *)
Theorem get_staged_diff_absent (env : Env) (st : State) :
  (fst (get_staged_diff env st) = Return None <->
   (exists text, git_diff_staged env = Exited 0 text /\ strip text = []) \/
   (exists rc text, git_diff_staged env = Exited rc text /\ rc <> 0%Z) \/
   git_diff_staged env = NotFound) /\
  (git_diff_staged env = Exited 0 [] ->
   get_staged_diff env st =
   (Return None, with_events st [GitDiff (Exited 0 [])])) /\
  (forall rc text,
      git_diff_staged env = Exited rc text -> rc <> 0%Z ->
      get_staged_diff env st =
      (Return None,
       with_events st
         [GitDiff (Exited rc text);
          Logged LvlError
                 (lit "Error getting git diff: " ++ universal_newlines text)])) /\
  (git_diff_staged env = NotFound ->
   get_staged_diff env st =
   (Return None,
    with_events st [GitDiff NotFound; Logged LvlError git_not_found_message])) /\
  (forall text, git_not_found_message <> lit "Error getting git diff: " ++ text).
Proof.
  rewrite get_staged_diff_runs. repeat split.
  - destruct (git_diff_staged env) as [rc text| | |x]; cbn [fst].
    + destruct (rc =? 0)%Z eqn:Erc.
      * apply Z.eqb_eq in Erc. subst rc.
        destruct (truthy_str (strip (universal_newlines text))) eqn:Et;
          cbn [negb fst].
        -- destruct (MAX_DIFF_CHARS <? length (strip (universal_newlines text)));
             discriminate.
        -- intros _. left. exists text. split; [reflexivity|].
           apply strip_universal_newlines_nil, truthy_str_false, Et.
      * apply Z.eqb_neq in Erc. intros _. right. left. eauto.
    + auto.
    + discriminate.
    + discriminate.
  - intros [[text [-> Ht]]|[[rc [text [-> Hrc]]]| ->]]; cbn [Z.eqb fst].
    + apply strip_universal_newlines_nil, truthy_str_false in Ht.
      rewrite Ht. reflexivity.
    + apply Z.eqb_neq in Hrc. rewrite Hrc. reflexivity.
    + reflexivity.
  - intros ->. reflexivity.
  - intros rc text -> Hrc. apply Z.eqb_neq in Hrc. rewrite Hrc. reflexivity.
  - intros ->. reflexivity.
  - intros text H. vm_compute in H. discriminate.
Qed.

(** A run without a git binary. *)
Example missing_git_is_no_diff :
  fst (get_staged_diff env_no_git (init [])) = Return None /\
  exit_status (fst (run env_no_git [])) = Some 1%Z /\
  trace (snd (run env_no_git [])) =
  [GitDiff NotFound; Logged LvlError git_not_found_message;
   Printed no_staged_notice].
Proof. vm_compute. repeat split. Qed.

(** ** C8: failures of the message generator *)

(** C8: whatever way the API call fails (HTTP error, transport error, any
    other exception), [generate_commit_message] logs an error and returns
    [None]; when the call succeeds it returns the text with the surrounding
    white space removed: the reply is what is returned between two blank
    strings, and what is returned neither begins nor ends with white space.
    No run of [main] ends with one of these failures as its exception. *)
Theorem generate_commit_message_contains_failures
        (env : Env) (diff model : str) (tok : option str) (st : State) :
  (forall e,
      chat_completion env (api_calls st) = ApiHTTPError e ->
      generate_commit_message env diff model tok st =
      (Return None,
       after_call env st tok model diff [Logged LvlError (lit "API error: " ++ e)])) /\
  (forall e,
      chat_completion env (api_calls st) = ApiRequestException e ->
      generate_commit_message env diff model tok st =
      (Return None,
       after_call env st tok model diff [Logged LvlError (lit "API error: " ++ e)])) /\
  (forall e,
      chat_completion env (api_calls st) = ApiUnexpected e ->
      generate_commit_message env diff model tok st =
      (Return None,
       after_call env st tok model diff
         [Logged LvlError (lit "Unexpected error generating commit message")])) /\
  (forall c,
      chat_completion env (api_calls st) = ApiContent c ->
      generate_commit_message env diff model tok st =
      (Return (Some (strip c)), after_call env st tok model diff []) /\
      trimmed_of (strip c) c) /\
  (forall lines e,
      fst (run env lines) <> Raise (HTTPError e) /\
      fst (run env lines) <> Raise (RequestException e) /\
      fst (run env lines) <> Raise (OtherError e)).
Proof.
  rewrite generate_commit_message_runs.
  split; [|split; [|split; [|split]]].
  1-3: intros x Hx; rewrite Hx; reflexivity.
  - intros c Hc. rewrite Hc. split; [reflexivity | apply strip_trimmed_of].
  - intros lines e.
    pose proof (run_finished env lines) as H.
    remember (fst (run env lines)) as r eqn:Er.
    remember (trace (snd (run env lines))) as tr eqn:Etr.
    clear Er Etr.
    repeat split; intros ->; inversion H; subst;
      try match goal with
          | Hx : exits _ _ |- _ => inversion Hx; subst; discriminate
          | Hc : commit_events _ _ = _ |- _ =>
              apply commit_events_status in Hc;
              destruct (git_commit env msg);
              try destruct (_ && _); discriminate
          end.
Qed.

(** ** C9: accepting and rejecting *)


(** ** C10: a blank reply of the model *)

(** C10: a reply of the model that is empty or made of white space only
    ([blank]) is, once stripped, an empty string, which the callers of
    [generate_commit_message] treat as they treat [None]: such a reply, and
    no other, counts with the errors of the API as a failed generation
    ([generation_fails]).  A run does not depend on which of the two it was, at
    the initial generation or at any regeneration: two surroundings that
    differ only in how generations fail (by an error or by a blank reply)
    give runs with the same result, the same input read, and the same events
    up to the log and the text of the failed replies.  After a failed
    generation the next step is [prompt_manual_message], and no run prints
    a suggestion panel around an empty message. *)
Theorem blank_reply_is_failed_generation (env : Env) (lines : list console_in) :
  (forall c, generation_fails (ApiContent c) = true <-> blank c) /\
  (forall e,
      generation_fails (ApiHTTPError e) = true /\
      generation_fails (ApiRequestException e) = true /\
      generation_fails (ApiUnexpected e) = true) /\
  (forall diff model tok st c,
      chat_completion env (api_calls st) = ApiContent c ->
      blank c ->
      fst (generate_commit_message env diff model tok st) = Return (Some []) /\
      truthy (Some []) = truthy None) /\
  (forall env',
      agree env env' ->
      fst (run env lines) = fst (run env' lines) /\
      stdin (snd (run env lines)) = stdin (snd (run env' lines)) /\
      view (trace (snd (run env lines))) = view (trace (snd (run env' lines)))) /\
  (forall st st1 d,
      get_staged_diff env st = (Return d, st1) ->
      truthy d = true ->
      generation_fails (chat_completion env (api_calls st1)) = true ->
      exists logs,
        view logs = [] /\
        main env st =
        try_catch
          (msg <- (msg <- prompt_manual_message env ;;
                   if negb (truthy_str msg) then
                     console_print env empty_message_notice ;; sys_exit 1
                   else ret msg) ;;
           commit_with_message env msg)
          (main_handler env)
          (mkState (stdin st1) (S (api_calls st1))
             (trace st1 ++
              [Panel (lit "[yellow]Staged Diff[/yellow]") (unwrap d);
               Status (lit "[bold green]Generating commit message...[/bold green]");
               ApiCall (if truthy (HF_TOKEN env) then HF_TOKEN env else None)
                       (args_model env) (prompt_template (unwrap d))
                       (chat_completion env (api_calls st1))]
              ++ logs ++ [Printed generation_failed_notice]))) /\
  (forall msg diff model tok s rest n tr,
      classify (lower (strip s)) = Regenerate ->
      generation_fails (chat_completion env n) = true ->
      exists logs,
        view logs = [] /\
        prompt_commit_message env msg diff model tok (mkState (Line s :: rest) n tr) =
        (m <- prompt_manual_message env ;; prompt_commit_message env m diff model tok)
          (mkState rest (S n)
             (tr ++ [Input review_prompt (Some (Line s));
                     Status (lit "[bold magenta]Regenerating commit message...[/bold magenta]");
                     ApiCall (if truthy tok then tok else None) model
                             (prompt_template diff) (chat_completion env n)]
                 ++ logs))) /\
  existsb is_blank_suggestion (trace (snd (run env lines))) = false.
Proof.
  split; [|split; [|split; [|split; [|split; [|split]]]]].
  - intros c. simpl. rewrite negb_true_iff, truthy_str_false.
    apply strip_nil_iff.
  - intros e. repeat split.
  - intros diff model tok st c Hc Hs. apply strip_nil_iff in Hs.
    rewrite generate_commit_message_runs, Hc, Hs. split; reflexivity.
  - intros env' Hag.
    destruct (rel_main env env' Hag (init lines) (init lines)) as [[H1 [_ H3]] Hr].
    { repeat split. }
    unfold run. repeat split; try assumption.
    destruct (fst (main env (init lines))) as [[]|e|],
             (fst (main env' (init lines))) as [[]|e'|];
      try contradiction; congruence.
  - apply generation_falls_through.
  - apply regeneration_falls_through.
  - by_finished env lines H.
    destruct H as [e tr' Hex Hne | tr' ev Hc Hi Hnc
                  | tr' m r evs Hc Hm Hce Hni | tr' m Hc Hm Hgi].
    + destruct Hex as [tr' ev Hc Hi Hnc|tr' s Hc Hs|tr' Hc|tr' s Hc Hs|e tr' He Hc];
        try rewrite (existsb_clean_app _ _ _ blank_suggestion_not_ordinary Hc);
        try rewrite (existsb_clean _ _ blank_suggestion_not_ordinary Hc);
        try reflexivity.
      simpl. rewrite (interrupt_not_panel _ Hi). reflexivity.
    + rewrite (existsb_clean_app _ _ _ blank_suggestion_not_ordinary Hc).
      simpl. rewrite (interrupt_not_panel _ Hi). reflexivity.
    + rewrite (existsb_clean_app _ _ _ blank_suggestion_not_ordinary Hc).
      eapply commit_events_no_panel, Hce.
    + rewrite (existsb_clean_app _ _ _ blank_suggestion_not_ordinary Hc).
      reflexivity.
Qed.

(** The blank reply and the unreachable API, side by side. *)
Lemma blank_and_offline_agree : agree env_blank env_offline.
Proof.
  constructor; try reflexivity.
  intros n. right. split; vm_compute; reflexivity.
Qed.

Example blank_reply_asks_for_manual_message :
  fst (run env_blank [Line (lit "docs: by hand")]) = Return tt /\
  view (trace (snd (run env_blank [Line (lit "docs: by hand")]))) =
  view (trace (snd (run env_offline [Line (lit "docs: by hand")]))) /\
  exists tr,
    trace (snd (run env_blank [Line (lit "docs: by hand")])) =
    tr ++ [Printed generation_failed_notice;
           Input manual_prompt (Some (Line (lit "docs: by hand")));
           GitCommit (lit "docs: by hand") (Exited 0 []);
           Printed (committed_notice (lit "docs: by hand"))].
Proof.
  split; [vm_compute; reflexivity|]. split; [vm_compute; reflexivity|].
  exists (firstn 4 (trace (snd (run env_blank [Line (lit "docs: by hand")])))).
  vm_compute. reflexivity.
Qed.


(** * Further properties of the code *)

(** ** One more invariant of runs *)

Lemma sound_snoc (env : Env) (tr : list event) (e : event) :
  Forall (sound env) tr -> sound env e -> Forall (sound env) (tr ++ [e]).
Proof. intros H He. apply Forall_app. split; [assumption | auto]. Qed.

Lemma keeps_ret {A} (env : Env) (phi : A -> Prop) (a : A) :
  phi a -> keeps env phi (ret a).
Proof. intros H. apply hoare_ret. auto. Qed.

Lemma keeps_emit (env : Env) (e : event) :
  sound env e -> keeps env (fun _ => True) (emit e).
Proof. intros He st Hst. simpl. split; [apply sound_snoc; assumption | exact I]. Qed.

Lemma keeps_exit {A} (env : Env) (phi : A -> Prop) (code : Z) :
  keeps env phi (sys_exit code).
Proof. apply hoare_raise. intros st Hst. exact Hst. Qed.

Lemma keeps_bind {A B} (env : Env) (phi : A -> Prop) (psi : B -> Prop)
                 (m : M A) (k : A -> M B) :
  keeps env phi m ->
  (forall a, phi a -> keeps env psi (k a)) ->
  keeps env psi (bind m k).
Proof.
  intros Hm Hk. eapply hoare_bind; [exact Hm | auto |].
  intros a. apply hoare_pure. intros Ha. apply Hk, Ha.
Qed.

Lemma keeps_while_True {S A} (env : Env) (I : S -> Prop) (phi : A -> Prop)
                       (body : S -> M (S + A)) :
  (forall s, I s ->
             keeps env (fun r => match r with
                                 | inl s' => I s'
                                 | inr a => phi a
                                 end) (body s)) ->
  forall s, I s -> keeps env phi (while_True body s).
Proof.
  intros Hbody s Hs.
  pose proof (hoare_while_True
                (fun s st => Forall (sound env) (trace st) /\ I s) body
                (fun a st => Forall (sound env) (trace st) /\ phi a)
                (ended env)) as H.
  intros st Hst. apply H; [|split; assumption].
  clear s Hs st Hst H. intros s st [Hc Hs].
  specialize (Hbody s Hs st Hc).
  destruct (body s st) as [[[s'|a]|e|] st1]; simpl in *; assumption.
Qed.

Lemma keeps_read_line (env : Env) (p : str) :
  keeps env (fun _ => True) (read_line p).
Proof.
  intros st Hst. unfold read_line.
  destruct (stdin st) as [|[s|] rest]; simpl.
  - exists (trace st), p. split; [reflexivity | assumption].
  - split; [|exact I]. apply sound_snoc; [assumption | exact I].
  - apply sound_snoc; [assumption | exact I].
Qed.

Lemma keeps_prompt_manual_message (env : Env) :
  keeps env (fun m : str => strip m = m) (prompt_manual_message env).
Proof.
  unfold prompt_manual_message. rewrite input_manual, print_empty_message.
  apply (keeps_while_True env (fun _ : unit => True)); [|exact I].
  intros _ _. eapply keeps_bind; [apply keeps_read_line|].
  intros line _. cbv zeta.
  destruct (truthy_str (strip line)).
  - apply keeps_ret, strip_strip.
  - eapply keeps_bind; [apply keeps_emit; exact I|].
    intros _ _. apply keeps_exit.
Qed.

(** What [get_staged_diff] returns depends on the surroundings only. *)
Lemma get_staged_diff_result (env : Env) (st : State) :
  fst (get_staged_diff env st) = fst (get_staged_diff env (init [])).
Proof.
  rewrite !get_staged_diff_runs.
  destruct (git_diff_staged env) as [rc text| | |x];
    [destruct (rc =? 0)%Z;
     [destruct (negb (truthy_str (strip (universal_newlines text))));
      [|destruct (MAX_DIFF_CHARS <? length (strip (universal_newlines text)))]|]|..];
    reflexivity.
Qed.

Section SoundRuns.

Variable env : Env.

Lemma keeps_get_staged_diff :
  keeps env (fun d => d = staged_diff env) (get_staged_diff env).
Proof.
  intros st Hst.
  assert (Hd : forall d, fst (get_staged_diff env st) = Return d ->
                         d = staged_diff env).
  { intros d Hd. unfold staged_diff.
    rewrite <- (get_staged_diff_result env st), Hd. reflexivity. }
  revert Hd. rewrite get_staged_diff_runs. unfold with_events.
  destruct (git_diff_staged env) as [rc text| | |x];
    [destruct (rc =? 0)%Z;
     [destruct (negb (truthy_str (strip (universal_newlines text))));
      [|destruct (MAX_DIFF_CHARS <? length (strip (universal_newlines text)))]|]|..];
    cbn [post fst snd trace]; intros Hd;
    try (split; [|apply Hd; reflexivity]);
    apply Forall_app; (split; [assumption|]);
    repeat constructor.
Qed.

Lemma keeps_generate_commit_message (d : str) :
  staged_diff env = Some d ->
  keeps env trimmed
        (generate_commit_message env d (args_model env) (HF_TOKEN env)).
Proof.
  intros Hd st Hst. rewrite generate_commit_message_runs. unfold after_call.
  assert (Hcall : forall r,
             sound env (ApiCall (if truthy (HF_TOKEN env) then HF_TOKEN env else None)
                                (args_model env) (prompt_template d) r)).
  { intros r. exists d. repeat split; assumption. }
  destruct (chat_completion env (api_calls st)) as [c|e|e|e|];
    cbn [post fst snd trace];
    try (split; [|intros m Hm; inversion Hm; subst; apply strip_strip]);
    apply Forall_app; (split; [assumption|]);
    repeat constructor; apply Hcall.
Qed.

Lemma suggestion_is_no_diff_panel (msg : str) :
  sound env (Panel suggestion_title
                   (lit "[bold green]" ++ msg ++ lit "[/bold green]")).
Proof. intros H. vm_compute in H. discriminate. Qed.

Lemma keeps_show_suggested_message (msg : str) :
  keeps env (fun _ => True) (show_suggested_message env msg).
Proof.
  intros st Hst. rewrite show_suggested_message_runs.
  destruct (markup_ok env (lit "[bold green]" ++ msg ++ lit "[/bold green]"));
    simpl.
  - split; [|exact I]. apply sound_snoc; [assumption|].
    apply suggestion_is_no_diff_panel.
  - exact Hst.
Qed.

Lemma keeps_review_round (d msg : str) :
  staged_diff env = Some d ->
  strip msg = msg ->
  keeps env (fun r : str + str => match r with
                                  | inl m => strip m = m
                                  | inr m => strip m = m
                                  end)
        (review_round env d (args_model env) (HF_TOKEN env) msg).
Proof.
  intros Hd Hmsg. unfold review_round.
  rewrite input_review, print_rejected, print_invalid_choice,
    status_regenerating.
  eapply keeps_bind; [apply keeps_read_line|].
  intros line _. cbv zeta.
  destruct (in_list (lower (strip line)) [lit "y"; lit "yes"; lit ""]);
    [apply keeps_ret; exact Hmsg|].
  destruct (in_list (lower (strip line)) [lit "n"; lit "no"]).
  { eapply keeps_bind; [apply keeps_emit; exact I|]. intros _ _. apply keeps_exit. }
  destruct (in_list (lower (strip line)) [lit "e"; lit "edit"]).
  { eapply keeps_bind; [apply keeps_prompt_manual_message|].
    intros m Hm. apply keeps_ret. exact Hm. }
  destruct (in_list (lower (strip line)) [lit "r"; lit "regen"; lit "regenerate"]).
  { eapply keeps_bind; [apply keeps_emit; exact I|]. intros _ _.
    eapply keeps_bind; [apply keeps_generate_commit_message, Hd|].
    intros g Hg. destruct (truthy g) eqn:Eg.
    - assert (strip (unwrap g) = unwrap g) as Hu.
      { destruct g as [m|]; [apply Hg; reflexivity | reflexivity]. }
      eapply keeps_bind; [apply keeps_show_suggested_message|].
      intros _ _. apply keeps_ret. exact Hu.
    - eapply keeps_bind; [apply keeps_prompt_manual_message|].
      intros m Hm. apply keeps_ret. exact Hm. }
  eapply keeps_bind; [apply keeps_emit; exact I|].
  intros _ _. apply keeps_ret. exact Hmsg.
Qed.

Lemma keeps_prompt_commit_message (d msg : str) :
  staged_diff env = Some d ->
  strip msg = msg ->
  keeps env (fun m : str => strip m = m)
        (prompt_commit_message env msg d (args_model env) (HF_TOKEN env)).
Proof.
  intros Hd Hmsg. unfold prompt_commit_message.
  apply (keeps_while_True env (fun m : str => strip m = m)); [|exact Hmsg].
  intros s Hs. apply keeps_review_round; assumption.
Qed.

Lemma keeps_commit_with_message (msg : str) :
  strip msg = msg ->
  keeps env (fun _ => True) (commit_with_message env msg).
Proof.
  intros Hmsg st Hst. rewrite commit_with_message_runs.
  unfold commit_events.
  destruct (git_commit env msg) as [rc text| | |x];
    [destruct (rc =? 0)%Z;
     [destruct (markup_ok env (committed_notice msg))|]|..];
    cbn [post fst snd trace ended];
    try (split; [|exact I]);
    apply Forall_app; (split; [assumption|]);
    repeat constructor; exact Hmsg.
Qed.

Lemma main_keeps : keeps env (fun _ => True) (main env).
Proof.
  rewrite main_unfold.
  eapply hoare_try_catch with (Qe1 := ended env).
  - eapply keeps_bind; [apply keeps_get_staged_diff|].
    intros g Hg. destruct (negb (truthy g)) eqn:Et.
    { eapply keeps_bind; [apply keeps_emit; exact I|]. intros _ _. apply keeps_exit. }
    apply negb_false_iff in Et.
    assert (staged_diff env = Some (unwrap g)) as Hd.
    { rewrite <- Hg. destruct g; [reflexivity | discriminate]. }
    eapply keeps_bind; [apply keeps_emit; intros _; exact Hd|]. intros _ _.
    eapply keeps_bind; [apply keeps_emit; exact I|]. intros _ _.
    eapply keeps_bind; [apply keeps_generate_commit_message, Hd|].
    intros c Hc.
    eapply keeps_bind with (phi := fun m : str => strip m = m).
    + destruct (truthy c) eqn:Ec.
      * assert (strip (unwrap c) = unwrap c) as Hu.
        { destruct c as [m|]; [apply Hc; reflexivity | reflexivity]. }
        eapply keeps_bind; [apply keeps_show_suggested_message|].
        intros _ _. apply keeps_prompt_commit_message; assumption.
      * eapply keeps_bind; [apply keeps_emit; exact I|]. intros _ _.
        eapply keeps_bind; [apply keeps_prompt_manual_message|].
        intros m Hm. destruct (negb (truthy_str m)).
        -- eapply keeps_bind; [apply keeps_emit; exact I|]. intros _ _.
           apply keeps_exit.
        -- apply keeps_ret, Hm.
    + intros m Hm. apply keeps_commit_with_message, Hm.
  - intros e. rewrite main_handler_runs.
    destruct e; try (apply hoare_raise; auto).
    eapply hoare_bind with (Q1 := fun _ st => Forall (sound env) (trace st))
                           (Qe1 := ended env); [| auto |].
    + intros st Hst. simpl. apply sound_snoc; [exact Hst | exact I].
    + intros _. apply hoare_raise. auto.
Qed.

(** The trace of a run: sound throughout, or sound up to a last prompt that
    met the end of input, in which case the run raised [EOFError]. *)
Lemma run_sound (lines : list console_in) :
  (fst (run env lines) <> Raise EOFError /\
   Forall (sound env) (trace (snd (run env lines)))) \/
  (fst (run env lines) = Raise EOFError /\
   exists tr0 p,
     trace (snd (run env lines)) = tr0 ++ [Input p None] /\
     Forall (sound env) tr0).
Proof.
  unfold run. pose proof (main_keeps (init lines)) as H.
  pose proof (main_finishes env (init lines)) as Hfin.
  specialize (H (Forall_nil _)).
  destruct (fst (main env (init lines))) as [a|e|]; simpl in H.
  - left. split; [discriminate | apply H].
  - destruct e; try (left; split; [discriminate | exact H]).
    right. split; [reflexivity | exact H].
  - contradiction.
Qed.

End SoundRuns.

(** ** Properties of the review loop and of whole runs *)

(** X1: answers that are none of the choices are each met with the notice
    of an invalid choice and the review prompt again; the current message
    and the number of API calls stay as they are. *)
Theorem invalid_answers_reprompt
        (env : Env) (msg diff model : str) (tok : option str)
        (answers : list str) (rest : list console_in) (n : nat) (tr : list event) :
  Forall (fun s => classify (lower (strip s)) = Invalid) answers ->
  prompt_commit_message env msg diff model tok
    (mkState (map Line answers ++ rest) n tr) =
  prompt_commit_message env msg diff model tok
    (mkState rest n
       (tr ++ flat_map (fun s => [Input review_prompt (Some (Line s));
                                  Printed invalid_choice_notice]) answers)).
Proof.
  intros H. revert tr. induction H as [|s answers Hs _ IH]; intros tr.
  - simpl. rewrite app_nil_r. reflexivity.
  - simpl map. simpl app at 1. rewrite prompt_commit_message_unfold.
    unfold bind at 1. rewrite review_round_line, Hs.
    unfold with_events. cbn [stdin api_calls trace].
    rewrite IH. simpl flat_map. rewrite <- !app_assoc. reflexivity.
Qed.

(** [invalid_answers_reprompt] on the answers [x] and [maybe]. *)
Lemma invalid_answers_reprompt_witness :
  prompt_commit_message env_ok (lit "fix: x") (lit "d") (lit "m") None
    (mkState (map Line [lit "x"; lit "maybe"] ++ [Line (lit "y")]) 1 []) =
  prompt_commit_message env_ok (lit "fix: x") (lit "d") (lit "m") None
    (mkState [Line (lit "y")] 1
       ([] ++ flat_map (fun s => [Input review_prompt (Some (Line s));
                                  Printed invalid_choice_notice])
                       [lit "x"; lit "maybe"])).
Proof.
  apply (invalid_answers_reprompt env_ok (lit "fix: x") (lit "d") (lit "m") None
           [lit "x"; lit "maybe"] [Line (lit "y")] 1 []).
  repeat constructor.
Defined.



(** A regenerated suggestion with a closing tag that closes nothing: the
    run ends with [MarkupError] and status 1, and nothing is committed. *)
Example regenerated_suggestion_refused :
  fst (run env_tagged [Line (lit "r"); Line (lit "y")]) = Raise MarkupError /\
  exit_status (fst (run env_tagged [Line (lit "r"); Line (lit "y")])) = Some 1%Z /\
  stdin (snd (run env_tagged [Line (lit "r"); Line (lit "y")])) = [Line (lit "y")] /\
  existsb is_commit (trace (snd (run env_tagged [Line (lit "r"); Line (lit "y")])))
  = false.
Proof. vm_compute. repeat split. Qed.

(** X3: the choice an answer denotes does not depend on the case of its
    ASCII letters nor on white space around it. *)
Theorem choice_ignores_case_and_blanks (a b pad1 pad2 : str) :
  blank pad1 -> blank pad2 ->
  lower a = lower b ->
  classify (lower (strip (pad1 ++ a ++ pad2))) = classify (lower (strip b)).
Proof.
  intros H1 H2 Hab. rewrite strip_pad by assumption.
  rewrite <- !strip_lower, Hab. reflexivity.
Qed.

(** [choice_ignores_case_and_blanks] on [" YeS\t"] and ["yes"]. *)
Lemma choice_ignores_case_and_blanks_witness :
  classify (lower (strip (lit " " ++ lit "YeS" ++ [9%N]))) =
  classify (lower (strip (lit "yes"))).
Proof.
  apply (choice_ignores_case_and_blanks (lit "YeS") (lit "yes") (lit " ") [9%N]);
    reflexivity.
Defined.

(** X4: in every run, the message handed to [git commit] has no white
    space at its beginning or at its end. *)
Theorem committed_message_is_trimmed
        (env : Env) (lines : list console_in) (msg : str) (r : proc_result) :
  In (GitCommit msg r) (trace (snd (run env lines))) ->
  strip msg = msg /\ headed msg /\ headed (rev msg).
Proof.
  intros Hin.
  assert (strip msg = msg) as H.
  { destruct (run_sound env lines) as [[_ Hs]|[_ [tr0 [p [Htr Hs]]]]].
    - rewrite Forall_forall in Hs. apply (Hs _ Hin).
    - rewrite Htr in Hin. apply in_app_or in Hin. destruct Hin as [Hin|[Hin|[]]].
      + rewrite Forall_forall in Hs. apply (Hs _ Hin).
      + discriminate. }
  split; [exact H|]. rewrite <- H. apply strip_headed.
Qed.

(** [committed_message_is_trimmed] on a run in which the model replies
    [" fix: x "] and the user accepts. *)
Lemma committed_message_is_trimmed_witness :
  strip (lit "fix: x") = lit "fix: x" /\
  headed (lit "fix: x") /\ headed (rev (lit "fix: x")).
Proof.
  apply (committed_message_is_trimmed env_ok [Line (lit "y")] (lit "fix: x")
                                      (Exited 0 [])).
  vm_compute. repeat first [left; reflexivity | right].
Defined.

Lemma staged_diff_returned (env : Env) (lines : list console_in) (d : str) :
  staged_diff env = Some d ->
  fst (get_staged_diff env (init lines)) = Return (Some d).
Proof.
  unfold staged_diff. rewrite (get_staged_diff_result env (init lines)).
  destruct (fst (get_staged_diff env (init []))) as [o| |];
    intros H; try discriminate. rewrite H. reflexivity.
Qed.

(** X5: every API call of a run, the first and each regeneration, asks
    about the diff that [get_staged_diff] returned, with the model of the
    command line and with the credential of the environment, an empty
    credential counting as none. *)
Theorem api_calls_share_request
        (env : Env) (lines : list console_in)
        (t : option str) (m p : str) (r : api_result) :
  In (ApiCall t m p r) (trace (snd (run env lines))) ->
  exists d,
    fst (get_staged_diff env (init lines)) = Return (Some d) /\
    p = prompt_template d /\
    m = args_model env /\
    t = (if truthy (HF_TOKEN env) then HF_TOKEN env else None).
Proof.
  intros Hin.
  assert (sound env (ApiCall t m p r)) as [d [Hd [Hp [Hm Ht]]]].
  { destruct (run_sound env lines) as [[_ Hs]|[_ [tr0 [q [Htr Hs]]]]].
    - rewrite Forall_forall in Hs. apply (Hs _ Hin).
    - rewrite Htr in Hin. apply in_app_or in Hin. destruct Hin as [Hin|[Hin|[]]].
      + rewrite Forall_forall in Hs. apply (Hs _ Hin).
      + discriminate. }
  exists d. repeat split; try assumption.
  apply staged_diff_returned, Hd.
Qed.

(** [api_calls_share_request] on the call of a regeneration. *)
Lemma api_calls_share_request_witness :
  exists d,
    fst (get_staged_diff env_ok (init [Line (lit "r"); Line (lit "y")])) =
    Return (Some d) /\
    prompt_template (lit "diff --git a/x b/x") = prompt_template d /\
    DEFAULT_MODEL = args_model env_ok /\
    None = (if truthy (HF_TOKEN env_ok) then HF_TOKEN env_ok else None).
Proof.
  apply (api_calls_share_request env_ok [Line (lit "r"); Line (lit "y")]
           None DEFAULT_MODEL (prompt_template (lit "diff --git a/x b/x"))
           (ApiContent (lit " fix: x "))).
  vm_compute. repeat first [left; reflexivity | right].
Defined.

(** X6: the text that a run hands to the diff panel, as the source for
    its highlighter, is the very text that the prompts of the API calls of
    the run embed.  (What of it the terminal then shows is up to rich.) *)
Theorem panel_diff_is_sent
        (env : Env) (lines : list console_in) (body : str)
        (t : option str) (m p : str) (r : api_result) :
  In (Panel (lit "[yellow]Staged Diff[/yellow]") body)
     (trace (snd (run env lines))) ->
  In (ApiCall t m p r) (trace (snd (run env lines))) ->
  p = prompt_template body.
Proof.
  intros Hpanel Hcall.
  assert (forall e, In e (trace (snd (run env lines))) ->
                    (forall q, e <> Input q None) -> sound env e) as Hs.
  { intros e Hin Hne.
    destruct (run_sound env lines) as [[_ Hs]|[_ [tr0 [q [Htr Hs]]]]].
    - rewrite Forall_forall in Hs. apply (Hs _ Hin).
    - rewrite Htr in Hin. apply in_app_or in Hin. destruct Hin as [Hin|[Hin|[]]].
      + rewrite Forall_forall in Hs. apply (Hs _ Hin).
      + exfalso. apply (Hne q). symmetry. exact Hin. }
  pose proof (Hs _ Hpanel (fun q H => ltac:(discriminate H)) eq_refl) as Hb.
  destruct (Hs _ Hcall (fun q H => ltac:(discriminate H))) as [d [Hd [Hp _]]].
  rewrite Hb in Hd. inversion Hd. subst. reflexivity.
Qed.

(** [panel_diff_is_sent] on a run in which the suggestion is accepted. *)
Lemma panel_diff_is_sent_witness :
  prompt_template (lit "diff --git a/x b/x") =
  prompt_template (lit "diff --git a/x b/x").
Proof.
  apply (panel_diff_is_sent env_ok [Line (lit "y")] (lit "diff --git a/x b/x")
           None DEFAULT_MODEL (prompt_template (lit "diff --git a/x b/x"))
           (ApiContent (lit " fix: x ")));
    vm_compute; repeat first [left; reflexivity | right].
Defined.

(** X7: when a prompt of a run meets the end of input, the run ends there
    with [EOFError], which nothing catches: the exit status is 1 and no
    commit call has been issued. *)
Theorem end_of_input_fails
        (env : Env) (lines : list console_in) (p : str) :
  In (Input p None) (trace (snd (run env lines))) ->
  fst (run env lines) = Raise EOFError /\
  exit_status (fst (run env lines)) = Some 1%Z /\
  (exists tr0, trace (snd (run env lines)) = tr0 ++ [Input p None]) /\
  existsb is_commit (trace (snd (run env lines))) = false.
Proof.
  intros Hin.
  destruct (run_sound env lines) as [[_ Hs]|[He [tr0 [q [Htr Hs]]]]].
  { rewrite Forall_forall in Hs. destruct (Hs _ Hin). }
  split; [exact He|]. split; [rewrite He; reflexivity|]. split.
  - rewrite Htr in Hin |- *. apply in_app_or in Hin.
    destruct Hin as [Hin|[Hin|[]]].
    + rewrite Forall_forall in Hs. destruct (Hs _ Hin).
    + inversion Hin. subst. exists tr0. reflexivity.
  - clear Hin Htr Hs. by_finished env lines H. subst.
    inversion H; subst.
    + eapply exits_no_commit; eassumption.
    + match goal with Hc : commit_events _ _ = _ |- _ =>
        apply commit_events_status in Hc end.
      destruct (git_commit env msg); try destruct (_ && _); discriminate.
Qed.

(** [end_of_input_fails] on a run with no input at all. *)
Lemma end_of_input_fails_witness :
  fst (run env_ok []) = Raise EOFError /\
  exit_status (fst (run env_ok [])) = Some 1%Z /\
  (exists tr0, trace (snd (run env_ok [])) = tr0 ++ [Input review_prompt None]) /\
  existsb is_commit (trace (snd (run env_ok []))) = false.
Proof.
  apply (end_of_input_fails env_ok [] review_prompt).
  vm_compute. repeat first [left; reflexivity | right].
Defined.

Lemma headed_app (a b : str) : a <> [] -> headed a -> headed (a ++ b).
Proof. destruct a; [congruence | auto]. Qed.

Lemma firstn_nonempty (n : nat) (s : str) :
  s <> [] -> 0 < n -> firstn n s <> [].
Proof. destruct s, n; simpl; intros; try congruence; lia. Qed.

(** The shape of a diff that [get_staged_diff] returns: the stripped output
    of git, cut to [MAX_DIFF_CHARS] characters and marked when it is longer. *)
Lemma returned_diff_bounds (env : Env) (st : State) (d : str) :
  fst (get_staged_diff env st) = Return (Some d) ->
  d <> [] /\ headed d /\
  length d <= MAX_DIFF_CHARS + 16.
Proof.
  rewrite get_staged_diff_runs.
  destruct (git_diff_staged env) as [rc text| | |x]; cbn [fst];
    try discriminate.
  destruct (rc =? 0)%Z; [|discriminate].
  set (out := universal_newlines text). clearbody out.
  destruct (truthy_str (strip out)) eqn:Et; cbn [negb fst]; [|discriminate].
  apply truthy_str_true in Et.
  destruct (MAX_DIFF_CHARS <? length (strip out)) eqn:El; cbn [fst]; intros H.
  - assert (d = firstn MAX_DIFF_CHARS (strip out) ++ truncation_marker) as ->
        by congruence.
    clear H. assert (firstn MAX_DIFF_CHARS (strip out) <> []) as Hf
        by (apply firstn_nonempty; [assumption | unfold MAX_DIFF_CHARS; lia]).
    split; [|split].
    + intros Hn. apply app_eq_nil in Hn. destruct Hn. contradiction.
    + apply headed_app; [assumption|].
      pose proof (proj1 (strip_headed out)) as Hh.
      destruct (strip out) as [|c t]; [contradiction|].
      unfold MAX_DIFF_CHARS. exact Hh.
    + rewrite length_app.
      pose proof (firstn_le_length MAX_DIFF_CHARS (strip out)).
      change (length truncation_marker) with 16. unfold MAX_DIFF_CHARS in *. lia.
  - assert (d = strip out) as -> by congruence. clear H.
    apply Nat.ltb_ge in El.
    split; [assumption|]. split; [apply strip_headed | unfold MAX_DIFF_CHARS in *; lia].
Qed.

(** X8: a diff that [get_staged_diff] returns is not empty, does not begin
    with white space, and has at most [MAX_DIFF_CHARS] characters plus the
    16 of the truncation marker, however much git printed. *)
Theorem staged_diff_bounds (env : Env) (st : State) (d : str) :
  fst (get_staged_diff env st) = Return (Some d) ->
  d <> [] /\ headed d /\
  length d <= MAX_DIFF_CHARS + 16.
Proof. exact (returned_diff_bounds env st d). Qed.

(** [staged_diff_bounds] on a diff of 5001 characters. *)
Lemma staged_diff_bounds_witness :
  repeat 97%N MAX_DIFF_CHARS ++ truncation_marker <> [] /\
  headed (repeat 97%N MAX_DIFF_CHARS ++ truncation_marker) /\
  length (repeat 97%N MAX_DIFF_CHARS ++ truncation_marker) <= MAX_DIFF_CHARS + 16.
Proof.
  apply (staged_diff_bounds env_long (init [])).
  vm_compute. reflexivity.
Defined.

Lemma prompt_template_length (d : str) :
  length (prompt_template d) = length d + length (prompt_template []).
Proof.
  unfold prompt_template. rewrite !length_app. simpl (length []). lia.
Qed.

(** X9: the prompt of every API call of a run is bounded in size, whatever
    the size of the staged diff: the fixed text of the template (359
    characters) and at most [MAX_DIFF_CHARS] + 16 characters of diff. *)
Theorem prompt_size_is_bounded
        (env : Env) (lines : list console_in)
        (t : option str) (m p : str) (r : api_result) :
  In (ApiCall t m p r) (trace (snd (run env lines))) ->
  length p <= 359 + MAX_DIFF_CHARS + 16.
Proof.
  intros Hin.
  assert (sound env (ApiCall t m p r)) as [d [Hd [Hp _]]].
  { destruct (run_sound env lines) as [[_ Hs]|[_ [tr0 [q [Htr Hs]]]]].
    - rewrite Forall_forall in Hs. apply (Hs _ Hin).
    - rewrite Htr in Hin. apply in_app_or in Hin. destruct Hin as [Hin|[Hin|[]]].
      + rewrite Forall_forall in Hs. apply (Hs _ Hin).
      + discriminate. }
  subst p. rewrite prompt_template_length.
  pose proof (staged_diff_returned env [] d Hd) as Hret.
  destruct (returned_diff_bounds env (init []) d Hret) as [_ [_ Hlen]].
  change (length (prompt_template [])) with 359. lia.
Qed.

(** X10: with no diff to work on, whether nothing is staged or git failed,
    the run stops before it asks the model or the user anything: no API
    call, no prompt, no input read, and exit status 1. *)
Theorem no_diff_no_work (env : Env) (lines : list console_in) :
  fst (get_staged_diff env (init lines)) = Return None ->
  exit_status (fst (run env lines)) = Some 1%Z /\
  stdin (snd (run env lines)) = lines /\
  api_calls (snd (run env lines)) = 0 /\
  exists logs,
    Forall (fun e => exists lvl t, e = Logged lvl t) logs /\
    trace (snd (run env lines)) =
    GitDiff (git_diff_staged env) :: logs ++ [Printed no_staged_notice].
Proof.
  intros Hd. unfold run.
  destruct (get_staged_diff env (init lines)) as [r st1] eqn:E.
  simpl in Hd. subst r.
  rewrite (main_without_diff env _ _ _ E eq_refl). unfold with_events.
  cbn [fst snd stdin api_calls trace exit_status].
  rewrite get_staged_diff_runs in E. unfold with_events in E.
  destruct (git_diff_staged env) as [rc text| | |x];
    [destruct (rc =? 0)%Z;
     [destruct (negb (truthy_str (strip (universal_newlines text))));
      [|destruct (MAX_DIFF_CHARS <? length (strip (universal_newlines text)))]|]|..];
    inversion E; subst; cbn [stdin api_calls trace init];
    repeat split;
    first [ exists []; split; [constructor | reflexivity]
          | eexists [_]; split; [repeat constructor; eauto | reflexivity] ].
Qed.

(** [no_diff_no_work] on a run without a git binary. *)
Lemma no_diff_no_work_witness :
  exit_status (fst (run env_no_git [Line (lit "y")])) = Some 1%Z /\
  stdin (snd (run env_no_git [Line (lit "y")])) = [Line (lit "y")] /\
  api_calls (snd (run env_no_git [Line (lit "y")])) = 0 /\
  exists logs,
    Forall (fun e => exists lvl t, e = Logged lvl t) logs /\
    trace (snd (run env_no_git [Line (lit "y")])) =
    GitDiff (git_diff_staged env_no_git) :: logs ++ [Printed no_staged_notice].
Proof.
  apply (no_diff_no_work env_no_git [Line (lit "y")]). reflexivity.
Defined.


(** X12: whatever the surroundings and the input, the exit status of a run
    is 0 or 1. *)
Theorem exit_status_is_0_or_1 (env : Env) (lines : list console_in) :
  exit_status (fst (run env lines)) = Some 0%Z \/
  exit_status (fst (run env lines)) = Some 1%Z.
Proof.
  by_finished env lines H.
  destruct H as [e tr Hex Hne | tr ev Hc Hi Hnc
                | tr m r evs Hc Hm Hce Hni | tr m Hc Hm Hgi];
    try (left; reflexivity).
  - destruct Hex as [tr ev Hc Hi Hnc|tr s Hc Hs|tr Hc|tr s Hc Hs|e tr He Hc];
      [congruence | left; reflexivity | right; reflexivity | right; reflexivity |].
    destruct e; try discriminate; right; reflexivity.
  - pose proof (commit_events_status _ _ _ _ Hce) as Hs.
    destruct (git_commit env m) as [rc text| | |x];
      [destruct ((rc =? 0)%Z && negb (markup_ok env (committed_notice m)))|..];
      subst; [right | left | right | congruence | right]; reflexivity.
Qed.

Lemma prompt_manual_message_keeps_calls (env : Env) (st : State) :
  api_calls (snd (prompt_manual_message env st)) = api_calls st.
Proof.
  destruct st as [ins n tr]. destruct ins as [|[s|] rest].
  - unfold prompt_manual_message. rewrite input_manual. reflexivity.
  - rewrite prompt_manual_message_line.
    destruct (truthy_str (strip s)); reflexivity.
  - unfold prompt_manual_message. rewrite input_manual. reflexivity.
Qed.

(** X13: of the five kinds of answer at the review prompt only Regenerate
    costs an API call, and it costs exactly one, also when the generation
    fails and a manual message is asked for. *)
Theorem only_regenerate_calls_api
        (env : Env) (diff model : str) (tok : option str) (msg s : str)
        (rest : list console_in) (n : nat) (tr : list event) :
  api_calls (snd (review_round env diff model tok msg
                    (mkState (Line s :: rest) n tr))) =
  match classify (lower (strip s)) with
  | Regenerate => S n
  | _ => n
  end.
Proof.
  rewrite review_round_line.
  destruct (classify (lower (strip s))); try reflexivity.
  - unfold bind.
    match goal with
    | |- context [prompt_manual_message env ?st'] =>
        pose proof (prompt_manual_message_keeps_calls env st') as Hk;
        destruct (prompt_manual_message env st') as [[m|e|] st2]
    end; exact Hk.
  - unfold bind at 1. unfold emit at 1.
    cbn [stdin api_calls trace]. unfold bind at 1.
    rewrite generate_commit_message_runs. unfold after_call.
    cbn [stdin api_calls trace].
    destruct (chat_completion env n) as [c|e|e|e|]; cbn [truthy unwrap];
      try reflexivity;
      try (destruct (truthy_str (strip c));
           [unfold bind; rewrite show_suggested_message_runs;
            destruct (markup_ok env _); reflexivity|]);
      unfold bind;
      match goal with
      | |- context [prompt_manual_message env ?st'] =>
          pose proof (prompt_manual_message_keeps_calls env st') as Hk;
          destruct (prompt_manual_message env st') as [[m|e'|] st2]
      end; exact Hk.
Qed.



(** A first suggestion with a closing tag that closes nothing: the run ends
    before the prompt. *)
Example suggestion_refused :
  fst (run env_tagged_first [Line (lit "y")]) = Raise MarkupError /\
  exit_status (fst (run env_tagged_first [Line (lit "y")])) = Some 1%Z /\
  stdin (snd (run env_tagged_first [Line (lit "y")])) = [Line (lit "y")] /\
  trace (snd (run env_tagged_first [Line (lit "y")])) =
  [GitDiff (Exited 0 (lit "diff --git a/x b/x" ++ nl));
   Panel (lit "[yellow]Staged Diff[/yellow]") (lit "diff --git a/x b/x");
   Status (lit "[bold green]Generating commit message...[/bold green]");
   ApiCall None DEFAULT_MODEL (prompt_template (lit "diff --git a/x b/x"))
           (ApiContent (lit "fix: drop [/INST] token"))].
Proof. vm_compute. repeat split. Qed.

(** [prompt_size_is_bounded] on the call of a run that is accepted. *)
Lemma prompt_size_is_bounded_witness :
  length (prompt_template (lit "diff --git a/x b/x")) <= 359 + MAX_DIFF_CHARS + 16.
Proof.
  apply (prompt_size_is_bounded env_ok [Line (lit "y")] None DEFAULT_MODEL
           (prompt_template (lit "diff --git a/x b/x"))
           (ApiContent (lit " fix: x "))).
  vm_compute. repeat first [left; reflexivity | right].
Defined.



(** A message typed by the user that holds a closing tag: it is committed,
    and the run then ends with [MarkupError] and status 1. *)
Example confirmation_refused_after_commit :
  fst (run env_ok [Line (lit "e"); Line (lit "fix: drop [/INST] token");
                   Line (lit "y")]) = Raise MarkupError /\
  exit_status
    (fst (run env_ok [Line (lit "e"); Line (lit "fix: drop [/INST] token");
                      Line (lit "y")])) = Some 1%Z /\
  filter is_commit
    (trace (snd (run env_ok [Line (lit "e"); Line (lit "fix: drop [/INST] token");
                             Line (lit "y")]))) =
  [GitCommit (lit "fix: drop [/INST] token") (Exited 0 [])].
Proof. vm_compute. repeat split. Qed.
